(** * SaberTooth: widget invalidation protocol and the Slider widget

    A shallow embedding of [src/widgets/Slider.js] and of the parts of
    [BaseWidget] that the slider and the widget tests rely on.

    - [JsNum] gives the arithmetic of JavaScript numbers as an interface,
      with two instances: IEEE binary64 (what the program runs on) and exact
      rationals (the arithmetic the slider's formulas are written for).
    - [BaseWidget] holds the widget node, its setters, the bypass counter,
      the clip graphic and the tree walks.  [BaseWidget.js] is not among the
      sources; every definition taken from the written specification says so.
    - [Slider] follows [Slider.js] line by line. *)

From stdpp Require Import base decidable option list strings.
From Stdlib Require Import ZArith QArith PrimFloat Uint63 Lia Lqa.

Set Default Proof Using "Type".

(* ===================================================================== *)
(** * JavaScript numbers *)
(* ===================================================================== *)

Module JsNum.

(** The operations [Slider.js] applies to numbers. *)
Class Ops (A : Type) := {
  lit : Z -> A;                  (* an integer literal of the source *)
  add : A -> A -> A;
  sub : A -> A -> A;
  mul : A -> A -> A;
  div : A -> A -> A;
  lt : A -> A -> bool;           (* [a < b]; [a > b] is [lt b a] *)
  Math_min : A -> A -> A;
  Math_max : A -> A -> A
}.

Declare Scope js_scope.
Delimit Scope js_scope with js.
Infix "+" := add : js_scope.
Infix "-" := sub : js_scope.
Infix "*" := mul : js_scope.
Infix "/" := div : js_scope.

(** Exact rational arithmetic.  [Qdiv] by zero is [0] where JavaScript
    yields [Infinity] or [NaN]; statements over this instance keep their
    divisors away from zero. *)
Definition Q_lt (a b : Q) : bool := negb (Qle_bool b a).
Definition Q_min (a b : Q) : Q := if Qle_bool a b then a else b.
Definition Q_max (a b : Q) : Q := if Qle_bool a b then b else a.

#[export] Instance Q_ops : Ops Q := {|
  lit := inject_Z;
  add := Qplus; sub := Qminus; mul := Qmult; div := Qdiv;
  lt := Q_lt; Math_min := Q_min; Math_max := Q_max
|}.

(** IEEE 754 binary64, the Number type of ECMAScript.  [Math.min] and
    [Math.max] return [NaN] when an argument is [NaN] and order [-0]
    below [+0]. *)
Definition float_lit (z : Z) : float :=
  match z with
  | Zneg p => PrimFloat.opp (PrimFloat.of_uint63 (Uint63.of_Z (Zpos p)))
  | _ => PrimFloat.of_uint63 (Uint63.of_Z z)
  end.

Definition float_min (a b : float) : float :=
  if PrimFloat.is_nan a || PrimFloat.is_nan b then PrimFloat.nan
  else if PrimFloat.ltb a b then a
  else if PrimFloat.ltb b a then b
  else if PrimFloat.get_sign a then a else b.

Definition float_max (a b : float) : float :=
  if PrimFloat.is_nan a || PrimFloat.is_nan b then PrimFloat.nan
  else if PrimFloat.ltb a b then b
  else if PrimFloat.ltb b a then a
  else if PrimFloat.get_sign a then b else a.

#[export] Instance float_ops : Ops float := {|
  lit := float_lit;
  add := PrimFloat.add; sub := PrimFloat.sub;
  mul := PrimFloat.mul; div := PrimFloat.div;
  lt := PrimFloat.ltb; Math_min := float_min; Math_max := float_max
|}.

End JsNum.

(** Values a caller can hand to a setter that compares with [===]. *)
Inductive JsValue :=
  | JsUndefined
  | JsNull
  | JsBool (b : bool)
  | JsInt (n : Z)
  | JsString (s : string).

#[export] Instance JsValue_eq_dec : EqDecision JsValue.
Proof. solve_decision. Defined.

(** [throw new Error(msg)] *)
Inductive JsError := Error (message : string).

(** The state an imperative method leaves behind, and whether it returned
    or threw.  A throw keeps the writes made before it. *)
Inductive Outcome (S : Type) :=
  | Returned (s : S)
  | Thrown (e : JsError) (s : S).
Arguments Returned {S} s.
Arguments Thrown {S} e s.

Definition state_of {S} (o : Outcome S) : S :=
  match o with Returned s => s | Thrown _ s => s end.

Definition bind {S} (o : Outcome S) (k : S -> Outcome S) : Outcome S :=
  match o with Returned s => k s | Thrown e s => Thrown e s end.

(* ===================================================================== *)
(** * The widget node *)
(* ===================================================================== *)

(** [layoutSys/sizePolicies]: the two policy classes the slider
    instantiates.  A policy classifies one axis of its widget. *)
Inductive SizePolicy := FixedPolicy | ExpandingPolicy.

Definition isFixed (p : SizePolicy) : bool :=
  match p with FixedPolicy => true | ExpandingPolicy => false end.

Inductive Axis := Horizontal | Vertical.

(** [ST.Layouts]: the layout classes named by the tests. *)
Inductive LayoutKind := FixedLayout | HBoxLayout | VBoxLayout.

(** [layoutSys/Alignment]: the members [Slider.js] reads. *)
Module Alignment.
Inductive t := left | center | right | top | middle | bottom.
End Alignment.

(** A reference to a [ST.Theme] object; two references are the same object
    exactly when they are equal. *)
Definition ThemeRef := nat.

Module Size.
Record t (A : Type) := mk { width : A; height : A }.
Arguments mk {A}.
Arguments width {A}.
Arguments height {A}.
End Size.

Module Padding.
Record t (A : Type) := mk { left : A; top : A; right : A; bottom : A }.
Arguments mk {A}.
Arguments left {A}.
Arguments top {A}.
Arguments right {A}.
Arguments bottom {A}.
Definition setAllTo {A} (v : A) : t A := mk v v v v.
End Padding.

(** The mask graphic of a widget. *)
Module ClipGraphic.
Record t (A : Type) := mk {
  x : A; y : A; width : A; height : A; renderable : bool
}.
Arguments mk {A}.
Arguments x {A}.
Arguments y {A}.
Arguments width {A}.
Arguments height {A}.
Arguments renderable {A}.
End ClipGraphic.

Module BaseWidget.
Import JsNum.

(** Modelled from the spec: the fields of a widget node (section 3, "Widget
    node"), [BaseWidget.js] being absent.  [parent] and [children] are the
    shape of the tree below ([Widget]); the other fields are here.  The
    slider reads and writes [x], [y], [width], [height], [min], [max],
    [hPolicy], [vPolicy], [padding] and [layout.alignment] of such nodes.
    [themeOverride] is the "explicit override marker" of sections 3 and
    4.3: a widget that carries it keeps its theme when an ancestor's theme
    is set. *)
Record Props (A : Type) := mkProps {
  x : A;
  y : A;
  width : A;
  height : A;
  padding : Padding.t A;
  min : Size.t A;
  max : Size.t A;
  hPolicy : SizePolicy;
  vPolicy : SizePolicy;
  layout : LayoutKind;
  hAlign : Alignment.t;
  vAlign : Alignment.t;
  valid : bool;
  bypassDepth : nat;
  disabled : bool;
  theme : ThemeRef;
  clipGraphic : ClipGraphic.t A;
  themeOverride : bool
}.
Arguments mkProps {A}.
Arguments x {A}.
Arguments y {A}.
Arguments width {A}.
Arguments height {A}.
Arguments padding {A}.
Arguments min {A}.
Arguments max {A}.
Arguments hPolicy {A}.
Arguments vPolicy {A}.
Arguments layout {A}.
Arguments hAlign {A}.
Arguments vAlign {A}.
Arguments valid {A}.
Arguments bypassDepth {A}.
Arguments disabled {A}.
Arguments theme {A}.
Arguments clipGraphic {A}.
Arguments themeOverride {A}.

Section Fields.
Context {A : Type}.
Implicit Type p : Props A.

(** Plain field writes, one per field that some method assigns. *)
Definition with_x (v : A) p : Props A :=
  mkProps v (y p) (width p) (height p) (padding p) (min p) (max p)
    (hPolicy p) (vPolicy p) (layout p) (hAlign p) (vAlign p) (valid p)
    (bypassDepth p) (disabled p) (theme p) (clipGraphic p)
    (themeOverride p).
Definition with_y (v : A) p : Props A :=
  mkProps (x p) v (width p) (height p) (padding p) (min p) (max p)
    (hPolicy p) (vPolicy p) (layout p) (hAlign p) (vAlign p) (valid p)
    (bypassDepth p) (disabled p) (theme p) (clipGraphic p)
    (themeOverride p).
Definition with_width (v : A) p : Props A :=
  mkProps (x p) (y p) v (height p) (padding p) (min p) (max p)
    (hPolicy p) (vPolicy p) (layout p) (hAlign p) (vAlign p) (valid p)
    (bypassDepth p) (disabled p) (theme p) (clipGraphic p)
    (themeOverride p).
Definition with_height (v : A) p : Props A :=
  mkProps (x p) (y p) (width p) v (padding p) (min p) (max p)
    (hPolicy p) (vPolicy p) (layout p) (hAlign p) (vAlign p) (valid p)
    (bypassDepth p) (disabled p) (theme p) (clipGraphic p)
    (themeOverride p).
Definition with_padding (v : Padding.t A) p : Props A :=
  mkProps (x p) (y p) (width p) (height p) v (min p) (max p)
    (hPolicy p) (vPolicy p) (layout p) (hAlign p) (vAlign p) (valid p)
    (bypassDepth p) (disabled p) (theme p) (clipGraphic p)
    (themeOverride p).
Definition with_min (v : Size.t A) p : Props A :=
  mkProps (x p) (y p) (width p) (height p) (padding p) v (max p)
    (hPolicy p) (vPolicy p) (layout p) (hAlign p) (vAlign p) (valid p)
    (bypassDepth p) (disabled p) (theme p) (clipGraphic p)
    (themeOverride p).
Definition with_max (v : Size.t A) p : Props A :=
  mkProps (x p) (y p) (width p) (height p) (padding p) (min p) v
    (hPolicy p) (vPolicy p) (layout p) (hAlign p) (vAlign p) (valid p)
    (bypassDepth p) (disabled p) (theme p) (clipGraphic p)
    (themeOverride p).
Definition with_hPolicy (v : SizePolicy) p : Props A :=
  mkProps (x p) (y p) (width p) (height p) (padding p) (min p) (max p)
    v (vPolicy p) (layout p) (hAlign p) (vAlign p) (valid p)
    (bypassDepth p) (disabled p) (theme p) (clipGraphic p)
    (themeOverride p).
Definition with_vPolicy (v : SizePolicy) p : Props A :=
  mkProps (x p) (y p) (width p) (height p) (padding p) (min p) (max p)
    (hPolicy p) v (layout p) (hAlign p) (vAlign p) (valid p)
    (bypassDepth p) (disabled p) (theme p) (clipGraphic p)
    (themeOverride p).
Definition with_layout (v : LayoutKind) p : Props A :=
  mkProps (x p) (y p) (width p) (height p) (padding p) (min p) (max p)
    (hPolicy p) (vPolicy p) v (hAlign p) (vAlign p) (valid p)
    (bypassDepth p) (disabled p) (theme p) (clipGraphic p)
    (themeOverride p).
Definition with_hAlign (v : Alignment.t) p : Props A :=
  mkProps (x p) (y p) (width p) (height p) (padding p) (min p) (max p)
    (hPolicy p) (vPolicy p) (layout p) v (vAlign p) (valid p)
    (bypassDepth p) (disabled p) (theme p) (clipGraphic p)
    (themeOverride p).
Definition with_vAlign (v : Alignment.t) p : Props A :=
  mkProps (x p) (y p) (width p) (height p) (padding p) (min p) (max p)
    (hPolicy p) (vPolicy p) (layout p) (hAlign p) v (valid p)
    (bypassDepth p) (disabled p) (theme p) (clipGraphic p)
    (themeOverride p).
Definition with_valid (v : bool) p : Props A :=
  mkProps (x p) (y p) (width p) (height p) (padding p) (min p) (max p)
    (hPolicy p) (vPolicy p) (layout p) (hAlign p) (vAlign p) v
    (bypassDepth p) (disabled p) (theme p) (clipGraphic p)
    (themeOverride p).
Definition with_bypassDepth (v : nat) p : Props A :=
  mkProps (x p) (y p) (width p) (height p) (padding p) (min p) (max p)
    (hPolicy p) (vPolicy p) (layout p) (hAlign p) (vAlign p) (valid p)
    v (disabled p) (theme p) (clipGraphic p)
    (themeOverride p).
Definition with_disabled (v : bool) p : Props A :=
  mkProps (x p) (y p) (width p) (height p) (padding p) (min p) (max p)
    (hPolicy p) (vPolicy p) (layout p) (hAlign p) (vAlign p) (valid p)
    (bypassDepth p) v (theme p) (clipGraphic p)
    (themeOverride p).
Definition with_theme (v : ThemeRef) p : Props A :=
  mkProps (x p) (y p) (width p) (height p) (padding p) (min p) (max p)
    (hPolicy p) (vPolicy p) (layout p) (hAlign p) (vAlign p) (valid p)
    (bypassDepth p) (disabled p) v (clipGraphic p)
    (themeOverride p).
Definition with_clipGraphic (v : ClipGraphic.t A) p : Props A :=
  mkProps (x p) (y p) (width p) (height p) (padding p) (min p) (max p)
    (hPolicy p) (vPolicy p) (layout p) (hAlign p) (vAlign p) (valid p)
    (bypassDepth p) (disabled p) (theme p) v
    (themeOverride p).
Definition with_themeOverride (v : bool) p : Props A :=
  mkProps (x p) (y p) (width p) (height p) (padding p) (min p) (max p)
    (hPolicy p) (vPolicy p) (layout p) (hAlign p) (vAlign p) (valid p)
    (bypassDepth p) (disabled p) (theme p) (clipGraphic p) v.

End Fields.

Section Methods.
Context {A : Type} `{Ops A}.
Implicit Type p : Props A.
Local Open Scope js_scope.

(** Modelled from the spec: [invalidate()] of the absent [BaseWidget.js]
    (section 4.3): "sets valid = false on this widget only; no
    propagation". *)
Definition invalidate p : Props A := with_valid false p.

(** Modelled from the spec: [_updateClipGraphic()] of the absent
    [BaseWidget.js] (section 4.3): the mask is the content box, "full size
    minus padding on each side", placed at the leading padding, and is
    never renderable. *)
Definition _updateClipGraphic p : Props A :=
  with_clipGraphic
    (ClipGraphic.mk
       (Padding.left (padding p))
       (Padding.top (padding p))
       (width p - Padding.left (padding p) - Padding.right (padding p))
       (height p - Padding.top (padding p) - Padding.bottom (padding p))
       false)
    p.

(** Modelled from the spec: [validate()] of the absent [BaseWidget.js]
    (section 4.3): recomputes the clip state of this widget and sets
    [valid = true]; does not recurse. *)
Definition validate p : Props A := with_valid true (_updateClipGraphic p).

(** Modelled from the spec: the bypass counter of the absent
    [BaseWidget.js] (sections 3 and 4.3): [beginBypassUpdate()] increments
    [bypassDepth], [endBypassUpdate()] decrements it, and an unmatched
    [endBypassUpdate()] is surfaced to the caller (section 7 b). *)
Definition beginBypassUpdate p : Props A :=
  with_bypassDepth (S (bypassDepth p)) p.

Definition endBypassUpdate p : Outcome (Props A) :=
  match bypassDepth p with
  | O => Thrown (Error "endBypassUpdate without beginBypassUpdate") p
  | S n => Returned (with_bypassDepth n p)
  end.

(** Modelled from the spec: what a direct property setter of the absent
    [BaseWidget.js] does after the write (section 4.3): [invalidate()] is
    "called by direct property setters (size, padding, position) when
    bypassDepth == 0". *)
Definition mutated p : Props A :=
  match bypassDepth p with
  | O => invalidate p
  | S _ => p
  end.

(** Modelled from the spec: the position setters of the absent
    [BaseWidget.js]. *)
Definition set_x (v : A) p : Props A := mutated (with_x v p).
Definition set_y (v : A) p : Props A := mutated (with_y v p).

(** Modelled from the spec: the size and padding setters of the absent
    [BaseWidget.js].  That they refresh the clip graphic is what
    [BaseWidget-spec.js] l.137-146 observes right after [widget2.width =
    400; widget2.height = 400]. *)
Definition set_width (v : A) p : Props A :=
  mutated (_updateClipGraphic (with_width v p)).
Definition set_height (v : A) p : Props A :=
  mutated (_updateClipGraphic (with_height v p)).
Definition set_padding (v : Padding.t A) p : Props A :=
  mutated (_updateClipGraphic (with_padding v p)).

(** The mutations of section 4.3: "size, padding, position". *)
Inductive Mutation :=
  | SetX (v : A)
  | SetY (v : A)
  | SetWidth (v : A)
  | SetHeight (v : A)
  | SetPadding (v : Padding.t A).

Definition mutate (m : Mutation) p : Props A :=
  match m with
  | SetX v => set_x v p
  | SetY v => set_y v p
  | SetWidth v => set_width v p
  | SetHeight v => set_height v p
  | SetPadding v => set_padding v p
  end.

(** A run of [beginBypassUpdate()] / [endBypassUpdate()] calls, and the
    number of calls of each kind in it. *)
Inductive BypassCall := Begin | End_.

Fixpoint begins (cs : list BypassCall) : nat :=
  match cs with
  | [] => O
  | Begin :: cs' => S (begins cs')
  | End_ :: cs' => begins cs'
  end.

Fixpoint ends (cs : list BypassCall) : nat :=
  match cs with
  | [] => O
  | Begin :: cs' => ends cs'
  | End_ :: cs' => S (ends cs')
  end.

Fixpoint bypassCalls (cs : list BypassCall) p : Outcome (Props A) :=
  match cs with
  | [] => Returned p
  | Begin :: cs' => bypassCalls cs' (beginBypassUpdate p)
  | End_ :: cs' => bind (endBypassUpdate p) (bypassCalls cs')
  end.

(** Modelled from the spec: the policy test of [routeInvalidation()]
    (section 4.3): "hPolicy.isFixed() or vPolicy.isFixed() depending on
    which axis triggered the mutation - both axes checked if unspecified".
    With no axis given the widget counts as fixed when both policies are. *)
Definition isFixedOn (ax : option Axis) p : bool :=
  match ax with
  | Some Horizontal => isFixed (hPolicy p)
  | Some Vertical => isFixed (vPolicy p)
  | None => isFixed (hPolicy p) && isFixed (vPolicy p)
  end.

(** A child "whose policies depend on this widget's freshly computed
    size": some axis of it is not fixed. *)
Definition isExpanding p : bool := negb (isFixedOn None p).

End Methods.
Arguments Mutation A : clear implicits.

(* ===================================================================== *)
(** * The widget tree *)
(* ===================================================================== *)

(** A widget with the widgets it owns, in insertion order.  [updateCalls]
    counts the calls of [update()] on the node, the way the tests spy on
    it ([sinon.spy(widget0, 'update')]). *)
#[warnings="-register-all"]
Inductive Widget (A : Type) :=
  Node (updateCalls : nat) (props : Props A) (children : list (Widget A)).
Arguments Node {A}.

(** A widget of a tree is named by the child indices that lead to it from
    the root; its parent is named by the same list without its last
    index, and the root by the empty list. *)
Definition Path := list nat.

Section Tree.
Context {A : Type} `{Ops A}.
Implicit Type w t : Widget A.
Implicit Type q : Path.

Definition updateCalls w : nat := match w with Node n _ _ => n end.
Definition props w : Props A := match w with Node _ p _ => p end.
Definition children w : list (Widget A) := match w with Node _ _ cs => cs end.

Fixpoint widget_at q t : option (Widget A) :=
  match q with
  | [] => Some t
  | i :: q' =>
      match children t !! i with
      | Some c => widget_at q' c
      | None => None
      end
  end.

Definition props_at q t : option (Props A) := props <$> widget_at q t.
Definition valid_at q t : option bool := valid <$> props_at q t.
Definition calls_at q t : option nat := updateCalls <$> widget_at q t.

(** Run a method on the widget at [q]; a path that names no widget leaves
    the tree as it is. *)
Fixpoint method_at (f : Widget A -> Widget A) q t : Widget A :=
  match q with
  | [] => f t
  | i :: q' =>
      Node (updateCalls t) (props t) (alter (method_at f q') i (children t))
  end.

Definition on_props (f : Props A -> Props A) w : Widget A :=
  Node (updateCalls w) (f (props w)) (children w).

(** A method keeps the shape of a tree when it adds and removes no
    widget. *)
Definition keeps_shape (f : Widget A -> Widget A) : Prop :=
  forall q w, is_Some (widget_at q (f w)) <-> is_Some (widget_at q w).

(** Modelled from the spec: the [theme] setter of the absent
    [BaseWidget.js].  Section 3: setting it "propagates the same reference
    to all descendants that don't already have an explicit override";
    section 4.3: it overwrites "any previously-set theme on a descendant
    that did not have its own explicit override marker".  The widget the
    setter is called on takes the theme; each descendant takes it unless
    it carries the marker. *)
Fixpoint inherit_theme (th : ThemeRef) w : Widget A :=
  match w with
  | Node n p cs =>
      Node n (if themeOverride p then p else with_theme th p)
        (map (inherit_theme th) cs)
  end.

Definition set_theme (th : ThemeRef) w : Widget A :=
  match w with
  | Node n p cs => Node n (with_theme th p) (map (inherit_theme th) cs)
  end.

(** Modelled from the spec: the [disabled] setter of the absent
    [BaseWidget.js] (section 4.3): it "cascades unconditionally to every
    descendant (no per-widget override escape)". *)
Fixpoint set_disabled (b : bool) w : Widget A :=
  match w with
  | Node n p cs => Node n (with_disabled b p) (map (set_disabled b) cs)
  end.

(** Modelled from the spec: [routeInvalidation()] of the absent
    [BaseWidget.js].  The walk and its stopping rule are those of section
    4.3: it starts at the calling widget [p], visits the widgets [take k p]
    for [k = length p, ..., 0], and stops at the first one that has a fixed
    policy on the axis, or at the root.  What it writes is what section 8's
    literal scenario ([{root:false, A:true, B:true}]) and
    [BaseWidget-spec.js] l.51-67 show: the widget where the walk stops is
    invalidated, the caller and the widgets passed on the way keep their
    valid flag.  The write is the guarded one of the setters: section 3,
    "while > 0, invalidation calls on this widget are suppressed". *)
Fixpoint routeInvalidation_at (ax : option Axis) (k : nat) (p : Path) t
  : Widget A :=
  let q := take k p in
  match props_at q t with
  | None => t
  | Some cur =>
      if isFixedOn ax cur then method_at (on_props mutated) q t
      else match k with
           | O => method_at (on_props mutated) q t
           | S k' => routeInvalidation_at ax k' p t
           end
  end.

Definition routeInvalidation (ax : option Axis) (p : Path) t : Widget A :=
  routeInvalidation_at ax (length p) p t.

(** Modelled from the spec: [addChild(widget)] of the absent
    [BaseWidget.js] (section 4.3): it "reparents widget into this node's
    children, propagates this node's current theme ... to the child ...,
    then calls routeInvalidation() on the child since the tree shape
    changed".  [c] is a widget that has no parent yet; it becomes the last
    child of the widget at [q].  The mask handed to the child's size proxy
    belongs to the rendering backend and has no field here. *)
Definition append_child (c : Widget A) w : Widget A :=
  Node (updateCalls w) (props w)
    (children w ++ [inherit_theme (theme (props w)) c]).

Definition addChild (q : Path) (c : Widget A) t : Widget A :=
  match widget_at q t with
  | None => t
  | Some w =>
      routeInvalidation None (q ++ [length (children w)])
        (method_at (append_child c) q t)
  end.

(** The mutations of section 2: "size/position/padding/child-set
    change", on the widget at a path. *)
Inductive TreeMutation :=
  | Write (m : Mutation A)
  | AddChild (c : Widget A).

Definition mutate_at (q : Path) (m : TreeMutation) t : Widget A :=
  match m with
  | Write m => method_at (on_props (mutate m)) q t
  | AddChild c => addChild q c t
  end.

(** Whether the walk that [addChild] starts at a new child [c] of a widget
    with fields [pr] stops at that widget: the child is not fixed, and the
    widget is fixed or is the root. *)
Definition stops_at_parent (q : Path) (pr : Props A) (c : Widget A) : bool :=
  negb (isFixedOn None (props c))
  && (isFixedOn None pr || bool_decide (q = [])).

(** The layout strategy of a widget ([layout.apply(this)], section 4.2)
    writes to the children of its owner: given the owner, the children in
    order and the index of one child, it maps that child's fields to the
    ones it has after the pass.  The strategies themselves are outside the
    sources; the walks below take the strategy as a parameter. *)
Definition LayoutPass := Props A -> list (Props A) -> nat -> Props A -> Props A.

Variable layout_apply : LayoutPass.

(** Modelled from the spec: [update()] of the absent [BaseWidget.js]
    (section 4.3): "invokes this widget's layout.apply(this), then
    validate(), then recursively calls update() on children whose policies
    depend on this widget's freshly computed size (expanding children
    only)".  [placed] is what the layout pass of the parent wrote to this
    widget just before. *)
Fixpoint update_placed (placed : Props A -> Props A) w : Widget A :=
  match w with
  | Node n p cs =>
      let p0 := placed p in
      let pass := layout_apply p0 (map props cs) in
      Node (S n) (validate p0)
        ((fix each (i : nat) (l : list (Widget A)) : list (Widget A) :=
            match l with
            | [] => []
            | c :: l' =>
                (if isExpanding (pass i (props c))
                 then update_placed (pass i) c
                 else on_props (pass i) c) :: each (S i) l'
            end) O cs)
  end.

Definition update w : Widget A := update_placed (fun p => p) w.

(** What [update()] does to the child at index [i] once the layout pass
    [pass] of the parent is known. *)
Definition update_child (pass : nat -> Props A -> Props A) (i : nat) w
  : Widget A :=
  if isExpanding (pass i (props w))
  then update_placed (pass i) w
  else on_props (pass i) w.

(** Modelled from the spec: [recursiveRouteUpdate()] of the absent
    [BaseWidget.js] (section 4.3): "if it has no parent or its parent is
    already valid, call update() on itself ...  Otherwise recurse into the
    parent's recursiveRouteUpdate() first ..., then - once that returns -
    this widget's own update() proceeds".  The widget visited at step [k]
    is [take k p]; its parent is [take (k - 1) p]. *)
Fixpoint recursiveRouteUpdate_at (k : nat) (p : Path) t : Widget A :=
  match k with
  | O => method_at update (take k p) t
  | S k' =>
      match valid_at (take k' p) t with
      | None => t
      | Some true => method_at update (take k p) t
      | Some false =>
          method_at update (take k p) (recursiveRouteUpdate_at k' p t)
      end
  end.

Definition recursiveRouteUpdate (p : Path) t : Widget A :=
  recursiveRouteUpdate_at (length p) p t.

End Tree.
Arguments TreeMutation A : clear implicits.

End BaseWidget.

(* ===================================================================== *)
(** * Slider.js *)
(* ===================================================================== *)

(** [.././const]: the two orientation constants.  The module is not among
    the sources; the slider only compares values with them. *)
Class StConst := {
  HORIZONTAL : JsValue;
  VERTICAL : JsValue
}.

Module Slider.
Import JsNum.
Import BaseWidget.

(** The state of a [Slider] that its accessors and listeners use: the
    [Container] part of the object ([base]), its two [Image] children, the
    fields the constructor declares (l.82-172) and the events emitted so
    far. *)
Record t (A : Type) := mk {
  base : Props A;
  _orientation : JsValue;
  minValue : A;
  maxValue : A;
  _value : A;
  oldValue : option A;
  valueCB : option (A -> A);
  track : Props A;
  button : Props A;
  btnHalfWidth : A;
  btnHalfHeight : A;
  emitted : list string
}.
Arguments mk {A}.
Arguments base {A}.
Arguments _orientation {A}.
Arguments minValue {A}.
Arguments maxValue {A}.
Arguments _value {A}.
Arguments oldValue {A}.
Arguments valueCB {A}.
Arguments track {A}.
Arguments button {A}.
Arguments btnHalfWidth {A}.
Arguments btnHalfHeight {A}.
Arguments emitted {A}.

Section Slider.
Context {A : Type} `{Ops A} `{StConst}.
Implicit Type s : t A.
Local Open Scope js_scope.

Definition with_base (v : Props A) s : t A :=
  mk v (_orientation s) (minValue s) (maxValue s) (_value s) (oldValue s)
    (valueCB s) (track s) (button s) (btnHalfWidth s) (btnHalfHeight s)
    (emitted s).
Definition with__orientation (v : JsValue) s : t A :=
  mk (base s) v (minValue s) (maxValue s) (_value s) (oldValue s)
    (valueCB s) (track s) (button s) (btnHalfWidth s) (btnHalfHeight s)
    (emitted s).
Definition with_minValue (v : A) s : t A :=
  mk (base s) (_orientation s) v (maxValue s) (_value s) (oldValue s)
    (valueCB s) (track s) (button s) (btnHalfWidth s) (btnHalfHeight s)
    (emitted s).
Definition with_maxValue (v : A) s : t A :=
  mk (base s) (_orientation s) (minValue s) v (_value s) (oldValue s)
    (valueCB s) (track s) (button s) (btnHalfWidth s) (btnHalfHeight s)
    (emitted s).
Definition with__value (v : A) s : t A :=
  mk (base s) (_orientation s) (minValue s) (maxValue s) v (oldValue s)
    (valueCB s) (track s) (button s) (btnHalfWidth s) (btnHalfHeight s)
    (emitted s).
Definition with_oldValue (v : option A) s : t A :=
  mk (base s) (_orientation s) (minValue s) (maxValue s) (_value s) v
    (valueCB s) (track s) (button s) (btnHalfWidth s) (btnHalfHeight s)
    (emitted s).
Definition with_valueCB (v : option (A -> A)) s : t A :=
  mk (base s) (_orientation s) (minValue s) (maxValue s) (_value s)
    (oldValue s) v (track s) (button s) (btnHalfWidth s) (btnHalfHeight s)
    (emitted s).
Definition with_track (v : Props A) s : t A :=
  mk (base s) (_orientation s) (minValue s) (maxValue s) (_value s)
    (oldValue s) (valueCB s) v (button s) (btnHalfWidth s) (btnHalfHeight s)
    (emitted s).
Definition with_button (v : Props A) s : t A :=
  mk (base s) (_orientation s) (minValue s) (maxValue s) (_value s)
    (oldValue s) (valueCB s) (track s) v (btnHalfWidth s) (btnHalfHeight s)
    (emitted s).
Definition with_btnHalfWidth (v : A) s : t A :=
  mk (base s) (_orientation s) (minValue s) (maxValue s) (_value s)
    (oldValue s) (valueCB s) (track s) (button s) v (btnHalfHeight s)
    (emitted s).
Definition with_btnHalfHeight (v : A) s : t A :=
  mk (base s) (_orientation s) (minValue s) (maxValue s) (_value s)
    (oldValue s) (valueCB s) (track s) (button s) (btnHalfWidth s) v
    (emitted s).

(** [this.emit(name)]: the listeners are the caller's; the event is
    recorded. *)
Definition emit (name : string) s : t A :=
  mk (base s) (_orientation s) (minValue s) (maxValue s) (_value s)
    (oldValue s) (valueCB s) (track s) (button s) (btnHalfWidth s)
    (btnHalfHeight s) (emitted s ++ [name]).

(** [settings.add('slider', ...)], l.33-42. *)
Definition settings_track_shortSize : A := lit 5.
Definition settings_track_hitAreaPadding : A := lit 5.
Definition settings_button_width : A := lit 20.
Definition settings_button_height : A := lit 20.

(** Modelled from the spec: [applyPosition()] of the absent
    [BaseWidget.js].  Section 1 keeps the rendering backend outside the
    widget core: the call hands [x] and [y] to the display object and
    writes no field of the node. *)
Definition applyPosition (p : Props A) : Props A := p.

(** [get orientation()], l.411-413. *)
Definition orientation s : JsValue := _orientation s.

(** [get value()], l.351-379.  The result is the returned number and the
    slider after the read. *)
Definition get_value s : A * t A :=
  if decide (orientation s = HORIZONTAL) then
    let value :=
      (((maxValue s - minValue s)
          / (width (track s) - width (button s)))
         * x (button s)) + minValue s in
    let s := with__value value s in
    match valueCB s with
    | Some cb => (cb value, s)
    | None => (value, s)
    end
  else
    let value :=
      (((maxValue s - minValue s)
          / (height (track s) - height (button s)))
         * y (button s)) + minValue s in
    let s := with__value value s in
    match valueCB s with
    | Some cb => (cb value, s)
    | None => (value, s)
    end.

(** The quantities both branches of the two accessors share: the length
    the button can travel along the track, the button's coordinate along
    it, and the number the getter computes from them. *)
Definition travel s : A :=
  if decide (orientation s = HORIZONTAL)
  then width (track s) - width (button s)
  else height (track s) - height (button s).

Definition position s : A :=
  if decide (orientation s = HORIZONTAL) then x (button s) else y (button s).

Definition raw_value s : A :=
  (((maxValue s - minValue s) / travel s) * position s) + minValue s.

(** [Math.min(Math.max(val, this.minValue), this.maxValue)], l.383. *)
Definition clamp (val : A) s : A :=
  Math_min (Math_max val (minValue s)) (maxValue s).

(** [set value(val)], l.381-405. *)
Definition set_value (val : A) s : Outcome (t A) :=
  let val := Math_min (Math_max val (minValue s)) (maxValue s) in
  let s := with_oldValue (Some val) (with__value val s) in
  let s := with_button (beginBypassUpdate (button s)) s in
  let s :=
    if decide (orientation s = HORIZONTAL) then
      let pos :=
        ((val - minValue s) / (maxValue s - minValue s))
          * (width (track s) - width (button s)) in
      let s := with_button (set_x pos (button s)) s in
      with_button (applyPosition (button s)) s
    else
      let pos :=
        ((val - minValue s) / (maxValue s - minValue s))
          * (height (track s) - height (button s)) in
      let s := with_button (set_y pos (button s)) s in
      with_button (applyPosition (button s)) s in
  match endBypassUpdate (button s) with
  | Thrown e b => Thrown e (with_button b s)
  | Returned b => Returned (emit "changed" (with_button b s))
  end.

(** [set orientation(val)], l.415-454.  The writes to [min], [max] and
    [layout.alignment] are field writes on objects the slider owns; the
    writes to [track.width] and [track.height] go through the size
    setters. *)
Definition set_orientation (val : JsValue) s : Outcome (t A) :=
  if decide (val = HORIZONTAL) then
    let s := with__orientation val s in
    let s := with_base
               (with_min (Size.mk (Size.width (min (base s)))
                                  (height (button s))) (base s)) s in
    let s := with_base
               (with_min (Size.mk (width (button s) * lit 2)
                                  (Size.height (min (base s)))) (base s)) s in
    let s := with_base
               (with_max (Size.mk (Size.width (max (base s)))
                                  (Size.height (min (base s)))) (base s)) s in
    let s := with_base
               (with_max (Size.mk (lit 10000)
                                  (Size.height (max (base s)))) (base s)) s in
    let s := with_track (set_width (width (base s)) (track s)) s in
    let s := with_track (set_height settings_track_shortSize (track s)) s in
    let s := with_base (with_hAlign Alignment.left (base s)) s in
    let s := with_base (with_vAlign Alignment.middle (base s)) s in
    let s := with_track (with_hPolicy ExpandingPolicy (track s)) s in
    let s := with_track (with_vPolicy FixedPolicy (track s)) s in
    Returned s
  else if decide (val = VERTICAL) then
    let s := with__orientation val s in
    let s := with_base
               (with_min (Size.mk (Size.width (min (base s)))
                                  (height (button s) * lit 2)) (base s)) s in
    let s := with_base
               (with_min (Size.mk (width (button s))
                                  (Size.height (min (base s)))) (base s)) s in
    let s := with_base
               (with_max (Size.mk (Size.width (max (base s)))
                                  (lit 10000)) (base s)) s in
    let s := with_base
               (with_max (Size.mk (Size.width (min (base s)))
                                  (Size.height (max (base s)))) (base s)) s in
    let s := with_track (set_width settings_track_shortSize (track s)) s in
    let s := with_track (set_height (height (base s)) (track s)) s in
    let s := with_base (with_hAlign Alignment.center (base s)) s in
    let s := with_base (with_vAlign Alignment.top (base s)) s in
    let s := with_track (with_vPolicy ExpandingPolicy (track s)) s in
    let s := with_track (with_hPolicy FixedPolicy (track s)) s in
    Returned s
  else
    Thrown (Error "Slider.orientation must be either ST.HORIZONTAL or UI.VERTICAL")
      s.

(** The listener on the button's [sizeChanged], l.270-273. *)
Definition button_sizeChanged s : t A :=
  let s := with_btnHalfWidth (width (button s) / lit 2) s in
  with_btnHalfHeight (height (button s) / lit 2) s.

(** The listener on the track's [sizeChanged], l.276-278:
    [this.value = this._value]. *)
Definition track_sizeChanged s : Outcome (t A) := set_value (_value s) s.

End Slider.
End Slider.

(* ===================================================================== *)
(** * Slider.js: listeners, painting and the hit rectangle *)
(* ===================================================================== *)

Module SliderEvents.
Import JsNum.
Import BaseWidget.

(** The textures the paint methods pick from [theme.textures.slider]
    (l.311-345), and the one both images are created with
    ([theme.texture], l.124 and l.147). *)
Inductive Texture :=
  | theme_texture
  | track_enabled
  | track_disabled
  | button_enabled
  | button_disabled
  | button_hover
  | button_click.

(** [PIXI.Rectangle] *)
Module Rectangle.
Record t (A : Type) := mk { x : A; y : A; width : A; height : A }.
Arguments mk {A}.
Arguments x {A}.
Arguments y {A}.
Arguments width {A}.
Arguments height {A}.
End Rectangle.

(** [e.data.getLocalPosition(this)] *)
Module Point.
Record t (A : Type) := mk { x : A; y : A }.
Arguments mk {A}.
Arguments x {A}.
Arguments y {A}.
End Point.

(** A slider together with the fields its listeners and paint methods
    use: the drag flag (l.172), the flag the listeners raise on the button
    (l.197, l.245), the textures of the two images, and the hit rectangle
    of the track with its padding (l.132-140). *)
Record t (A : Type) := mk {
  slider : Slider.t A;
  _dragging : bool;
  button_bypassInvalidation : bool;
  track_texture : Texture;
  button_texture : Texture;
  trackHitRect : Rectangle.t A;
  trackHitPadding : A
}.
Arguments mk {A}.
Arguments slider {A}.
Arguments _dragging {A}.
Arguments button_bypassInvalidation {A}.
Arguments track_texture {A}.
Arguments button_texture {A}.
Arguments trackHitRect {A}.
Arguments trackHitPadding {A}.

Section Events.
Context {A : Type} `{Ops A} `{StConst}.
Implicit Type l : t A.
Local Open Scope js_scope.

Definition with_slider (v : Slider.t A) l : t A :=
  mk v (_dragging l) (button_bypassInvalidation l) (track_texture l)
    (button_texture l) (trackHitRect l) (trackHitPadding l).
Definition with__dragging (v : bool) l : t A :=
  mk (slider l) v (button_bypassInvalidation l) (track_texture l)
    (button_texture l) (trackHitRect l) (trackHitPadding l).
Definition with_button_bypassInvalidation (v : bool) l : t A :=
  mk (slider l) (_dragging l) v (track_texture l)
    (button_texture l) (trackHitRect l) (trackHitPadding l).
Definition with_track_texture (v : Texture) l : t A :=
  mk (slider l) (_dragging l) (button_bypassInvalidation l) v
    (button_texture l) (trackHitRect l) (trackHitPadding l).
Definition with_button_texture (v : Texture) l : t A :=
  mk (slider l) (_dragging l) (button_bypassInvalidation l) (track_texture l)
    v (trackHitRect l) (trackHitPadding l).
Definition with_trackHitRect (v : Rectangle.t A) l : t A :=
  mk (slider l) (_dragging l) (button_bypassInvalidation l) (track_texture l)
    (button_texture l) v (trackHitPadding l).

(** [a > b] *)
Definition gt (a b : A) : bool := lt b a.

(** [updateTrackHitRect()], l.295-308. *)
Definition updateTrackHitRect l : t A :=
  let s := slider l in
  if decide (Slider.orientation s = HORIZONTAL) then
    with_trackHitRect
      (Rectangle.mk (lit 0) (lit 0 - trackHitPadding l)
         (width (Slider.track s))
         (height (Slider.track s) + (trackHitPadding l * lit 2)))
      l
  else
    with_trackHitRect
      (Rectangle.mk (lit 0 - trackHitPadding l) (lit 0)
         (width (Slider.track s) + (trackHitPadding l * lit 2))
         (height (Slider.track s)))
      l.

(** The paint methods, l.311-345.  The button exists once the constructor
    has run, so their guard [if(this.button)] holds. *)
Definition paintDefault l : t A :=
  with_button_texture button_enabled (with_track_texture track_enabled l).
Definition paintDisabled l : t A :=
  with_button_texture button_disabled (with_track_texture track_disabled l).
Definition paintDown l : t A := with_button_texture button_click l.
Definition paintHover l : t A := with_button_texture button_hover l.

(** The listeners on the button's [pointerdown], [pointerup],
    [pointerupoutside] and [pointercancel], l.176-191. *)
Definition pointerdown l : t A := paintDown (with__dragging true l).
Definition pointerup l : t A := paintDefault (with__dragging false l).
Definition pointerupoutside l : t A := paintDefault (with__dragging false l).
Definition pointercancel l : t A := paintDefault (with__dragging false l).

(** [this.button.x = v; this.button.applyPosition(); this.value;] and the
    same along [y]: the three statements every branch of the two pointer
    listeners ends with.  The read of [value] is made for its write to
    [_value]; its result is dropped. *)
Definition move_button_x (v : A) l : t A :=
  let s := slider l in
  let s := Slider.with_button (set_x v (Slider.button s)) s in
  let s := Slider.with_button (Slider.applyPosition (Slider.button s)) s in
  with_slider (snd (Slider.get_value s)) l.

Definition move_button_y (v : A) l : t A :=
  let s := slider l in
  let s := Slider.with_button (set_y v (Slider.button s)) s in
  let s := Slider.with_button (Slider.applyPosition (Slider.button s)) s in
  with_slider (snd (Slider.get_value s)) l.

(** The listener on the button's [pointermove], l.194-238, for a pointer
    at [pos].  [ST.HORIZONTAL] is the constant [HORIZONTAL] under the
    name the library exports it with. *)
Definition pointermove (pos : Point.t A) l : t A :=
  if _dragging l then
    let l := with_button_bypassInvalidation true l in
    let usableWidth :=
      width (Slider.track (slider l)) - Slider.btnHalfWidth (slider l) in
    let usableHeight :=
      height (Slider.track (slider l)) - Slider.btnHalfHeight (slider l) in
    let l :=
      if decide (Slider.orientation (slider l) = HORIZONTAL) then
        if gt (Point.x pos) (Slider.btnHalfWidth (slider l))
           && lt (Point.x pos) usableWidth
        then move_button_x (Point.x pos - Slider.btnHalfWidth (slider l)) l
        else if gt (Point.x pos) usableWidth
        then move_button_x (usableWidth - Slider.btnHalfWidth (slider l)) l
        else if lt (Point.x pos) (Slider.btnHalfWidth (slider l))
        then move_button_x (lit 0) l
        else l
      else
        if gt (Point.y pos) (Slider.btnHalfHeight (slider l))
           && lt (Point.y pos) usableHeight
        then move_button_y (Point.y pos - Slider.btnHalfHeight (slider l)) l
        else if gt (Point.y pos) usableHeight
        then move_button_y (usableHeight - Slider.btnHalfHeight (slider l)) l
        else if lt (Point.y pos) (Slider.btnHalfHeight (slider l))
        then move_button_y (lit 0) l
        else l in
    let l := with_button_bypassInvalidation false l in
    let l := paintDown l in
    with_slider (Slider.emit "changed" (slider l)) l
  else l.

(** The listener on the track's [pointertap], l.240-265. *)
Definition pointertap (pos : Point.t A) l : t A :=
  let l :=
    if decide (Slider.orientation (slider l) = HORIZONTAL) then
      let l := with_button_bypassInvalidation true l in
      let px :=
        if gt (Point.x pos)
             (width (Slider.track (slider l))
              - width (Slider.button (slider l)))
        then Point.x pos - width (Slider.button (slider l))
        else Point.x pos in
      let l := move_button_x px l in
      with_button_bypassInvalidation false l
    else
      let l := with_button_bypassInvalidation true l in
      let py :=
        if gt (Point.y pos)
             (height (Slider.track (slider l))
              - height (Slider.button (slider l)))
        then Point.y pos - height (Slider.button (slider l))
        else Point.y pos in
      let l := move_button_y py l in
      with_button_bypassInvalidation false l in
  with_slider (Slider.emit "changed" (slider l)) l.

(** The coordinate of a point along the slide axis of a slider, and the
    cached half of the button's length along it. *)
Definition along (pos : Point.t A) (s : Slider.t A) : A :=
  if decide (Slider.orientation s = HORIZONTAL)
  then Point.x pos else Point.y pos.

Definition btnHalf (s : Slider.t A) : A :=
  if decide (Slider.orientation s = HORIZONTAL)
  then Slider.btnHalfWidth s else Slider.btnHalfHeight s.

Definition trackLength (s : Slider.t A) : A :=
  if decide (Slider.orientation s = HORIZONTAL)
  then width (Slider.track s) else height (Slider.track s).

Definition buttonLength (s : Slider.t A) : A :=
  if decide (Slider.orientation s = HORIZONTAL)
  then width (Slider.button s) else height (Slider.button s).

(** The button move of a listener, along the slide axis. *)
Definition move_button (v : A) l : t A :=
  if decide (Slider.orientation (slider l) = HORIZONTAL)
  then move_button_x v l else move_button_y v l.

(** How both pointer listeners end: the flag on the button is lowered
    and [changed] is emitted; [pointermove] paints the button down in
    between. *)
Definition end_pointermove l : t A :=
  let l := paintDown (with_button_bypassInvalidation false l) in
  with_slider (Slider.emit "changed" (slider l)) l.

Definition end_pointertap l : t A :=
  let l := with_button_bypassInvalidation false l in
  with_slider (Slider.emit "changed" (slider l)) l.

End Events.

(** In exact arithmetic: the button is on the track, and the stored value
    is in the range. *)
Definition on_track `{StConst} (s : Slider.t Q) : Prop :=
  (0 <= Slider.position s <= Slider.travel s)%Q.
Definition in_range (s : Slider.t Q) : Prop :=
  (Slider.minValue s <= Slider._value s <= Slider.maxValue s)%Q.

End SliderEvents.

(* ===================================================================== *)
(** * Concrete widgets *)
(* ===================================================================== *)

Module Scenario.
Import JsNum BaseWidget.

(** The constants as numbers, the way the JSDoc of [Slider.js] types them
    ([@member {Number}]). *)
Definition consts : StConst := {| HORIZONTAL := JsInt 0; VERTICAL := JsInt 1 |}.

Section Widgets.
Context {A : Type} `{Ops A}.

(** A valid, enabled widget of the given size and uniform padding at the
    origin, not bypassed, with fixed policies, a fixed layout and no theme
    override. *)
Definition widget (w h pad : A) : Props A :=
  validate
    (mkProps (lit 0) (lit 0) w h (Padding.setAllTo pad)
       (Size.mk (lit 0) (lit 0)) (Size.mk (lit 10000) (lit 10000))
       FixedPolicy FixedPolicy FixedLayout Alignment.left Alignment.top
       true O false O
       (ClipGraphic.mk (lit 0) (lit 0) (lit 0) (lit 0) false)
       false).

(** A horizontal slider with the given track width and value range: no
    padding, a button of the configured size at the start of the track,
    no callback. *)
Definition slider (trackWidth lo hi : A) : Slider.t A :=
  Slider.mk
    (widget trackWidth (lit 20) (lit 0))
    (JsInt 0) lo hi lo None None
    (with_hPolicy ExpandingPolicy (widget trackWidth (lit 5) (lit 0)))
    (widget (lit 20) (lit 20) (lit 0))
    (lit 10) (lit 10) [].

(** The three widgets of [BaseWidget-spec.js] l.10-12: [widget0] owns
    [widget1], which owns [widget2]; [widget1] is at path [[0]] and
    [widget2] at path [[0; 0]]. *)
Definition chain3 (p0 p1 p2 : Props A) : Widget A :=
  Node O p0 [Node O p1 [Node O p2 []]].

Definition chain2 (p0 p1 : Props A) : Widget A :=
  Node O p0 [Node O p1 []].

Definition chain4 (p0 p1 p2 p3 : Props A) : Widget A :=
  Node O p0 [Node O p1 [Node O p2 [Node O p3 []]]].

(** A widget that expands on both axes. *)
Definition expanding (p : Props A) : Props A :=
  with_vPolicy ExpandingPolicy (with_hPolicy ExpandingPolicy p).

(** A layout pass that leaves every child where it is. *)
Definition keep_layout : LayoutPass (A := A) := fun _ _ _ c => c.

End Widgets.

(** A slider at rest with its listeners' fields: no drag, the flag on the
    button lowered, the textures the images were created with, an empty
    hit rectangle and the configured hit padding. *)
Definition live {A : Type} `{Ops A} (s : Slider.t A) : SliderEvents.t A :=
  SliderEvents.mk s false false
    SliderEvents.theme_texture SliderEvents.theme_texture
    (SliderEvents.Rectangle.mk (lit 0) (lit 0) (lit 0) (lit 0))
    Slider.settings_track_hitAreaPadding.

(** The slider above set to its maximum, then [slider.button.width = 200]:
    the size setter runs and the listener on the button's [sizeChanged]
    (l.270-273) refreshes the cached halves; the button stays where it
    is. *)
Definition widened_button : Slider.t Q :=
  let s := state_of (Slider.set_value (H0 := consts) 100%Q
                       (slider 392%Q 0%Q 100%Q)) in
  Slider.button_sizeChanged
    (Slider.with_button (set_width 200%Q (Slider.button s)) s).

End Scenario.

(* ===================================================================== *)
(** * Properties of the widget node and of the tree walks *)
(* ===================================================================== *)

Module BaseWidgetFacts.
Import JsNum BaseWidget.

Section Tree.
Context {A : Type} `{Ops A}.
Implicit Type w t : Widget A.
Implicit Type q p : Path.
Local Open Scope nat_scope.

Lemma widget_eta w : w = Node (updateCalls w) (props w) (children w).
Proof. destruct w; reflexivity. Qed.

Lemma widget_at_cons i q t :
  widget_at (i :: q) t = children t !! i ≫= widget_at q.
Proof. simpl. destruct (children t !! i); reflexivity. Qed.

(** A method run at [q] is seen at [q] as the method run on that widget. *)
Lemma widget_at_method_at f q t :
  widget_at q (method_at f q t) = f <$> widget_at q t.
Proof.
  revert t. induction q as [|i q IH]; intros t; [reflexivity|].
  simpl. rewrite list_lookup_alter_eq.
  destruct (children t !! i) as [c|]; simpl; [apply IH|reflexivity].
Qed.

(** A method run at [q] leaves the own fields of every widget outside the
    subtree of [q] as they were. *)
Lemma method_at_frame {B} (g : Widget A -> B) f q t q' :
  (forall n pr cs cs', g (Node n pr cs) = g (Node n pr cs')) ->
  ~ q `prefix_of` q' ->
  g <$> widget_at q' (method_at f q t) = g <$> widget_at q' t.
Proof.
  intros Hg. revert t q'. induction q as [|i q IH]; intros t q' Hn.
  - destruct Hn. apply prefix_nil.
  - destruct q' as [|j q']; simpl.
    + f_equal. destruct t as [n pr cs]. apply Hg.
    + destruct (decide (i = j)) as [->|Hij].
      * rewrite list_lookup_alter_eq.
        destruct (children t !! j) as [c|]; simpl; [|reflexivity].
        apply IH. intros Hp. apply Hn. apply prefix_cons. exact Hp.
      * rewrite list_lookup_alter_ne by exact Hij. reflexivity.
Qed.

Lemma props_at_frame f q t q' :
  ~ q `prefix_of` q' -> props_at q' (method_at f q t) = props_at q' t.
Proof. intros. apply (method_at_frame props); [reflexivity|assumption]. Qed.

Lemma calls_at_frame f q t q' :
  ~ q `prefix_of` q' -> calls_at q' (method_at f q t) = calls_at q' t.
Proof. intros. apply (method_at_frame updateCalls); [reflexivity|assumption]. Qed.

Lemma valid_at_frame f q t q' :
  ~ q `prefix_of` q' -> valid_at q' (method_at f q t) = valid_at q' t.
Proof. intros. unfold valid_at. rewrite props_at_frame by assumption. reflexivity. Qed.

Lemma method_at_keeps_shape (f : Widget A -> Widget A) q :
  keeps_shape f -> keeps_shape (method_at f q).
Proof.
  intros Hf. induction q as [|i q IH]; intros q' t; [apply Hf|].
  destruct q' as [|j q']; simpl.
  - split; intros _; eexists; reflexivity.
  - destruct (decide (i = j)) as [->|Hij].
    + rewrite list_lookup_alter_eq.
      destruct (children t !! j) as [c|]; simpl; [apply IH|reflexivity].
    + rewrite list_lookup_alter_ne by exact Hij. reflexivity.
Qed.

Lemma on_props_keeps_shape (f : Props A -> Props A) :
  keeps_shape (on_props f).
Proof. intros [|i q] w; simpl; [split; intros _; eexists; reflexivity|reflexivity]. Qed.

(** A write to the fields of the widget at [q] is seen there and nowhere
    else. *)
Lemma props_at_on_props f q t q' :
  props_at q' (method_at (on_props f) q t)
  = if decide (q' = q) then f <$> props_at q' t else props_at q' t.
Proof.
  unfold props_at. revert t q'. induction q as [|i q IH]; intros t q'.
  - destruct q' as [|j q']; [reflexivity|].
    case_decide; [discriminate|reflexivity].
  - destruct q' as [|j q'].
    + case_decide; [discriminate|reflexivity].
    + cbn [widget_at method_at children].
      destruct (decide (i = j)) as [->|Hij].
      * rewrite list_lookup_alter_eq.
        destruct (children t !! j) as [c|]; cbn [fmap option_fmap option_map].
        -- rewrite IH. repeat case_decide; try reflexivity; congruence.
        -- case_decide; reflexivity.
      * rewrite list_lookup_alter_ne by exact Hij.
        case_decide; [congruence|reflexivity].
Qed.

Lemma props_at_is_Some q t : is_Some (props_at q t) <-> is_Some (widget_at q t).
Proof. unfold props_at. apply fmap_is_Some. Qed.

(** Every widget has its ancestors. *)
Lemma widget_at_take p t j :
  is_Some (widget_at p t) -> is_Some (widget_at (take j p) t).
Proof.
  revert t j. induction p as [|i p IH]; intros t j Hp.
  - destruct j; exact Hp.
  - destruct j as [|j]; [eexists; reflexivity|].
    simpl in *. destruct (children t !! i) as [c|]; [apply IH; exact Hp|exact Hp].
Qed.

Lemma take_inj_length p j k :
  j <= length p -> k <= length p -> take j p = take k p -> j = k.
Proof.
  intros Hj Hk E. apply (f_equal length) in E.
  rewrite !length_take_le in E by assumption. exact E.
Qed.

Lemma invalidate_isFixedOn ax (pr : Props A) :
  isFixedOn ax (invalidate pr) = isFixedOn ax pr.
Proof. destruct ax as [[]|]; reflexivity. Qed.

Lemma mutated_valid_eq (pr : Props A) :
  valid (mutated pr)
  = match bypassDepth pr with O => false | S _ => valid pr end.
Proof. unfold mutated. destruct (bypassDepth pr); reflexivity. Qed.

(** The walk of [routeInvalidation()] from depth [k], when the nearest
    widget at which it stops has depth [a]: that widget takes the guarded
    invalidation, and nothing else is written. *)
Lemma routeInvalidation_at_spec ax p k : forall a t,
  a <= k -> k <= length p ->
  is_Some (widget_at p t) ->
  (forall j, a < j <= k ->
     isFixedOn ax <$> props_at (take j p) t = Some false) ->
  (a = 0 \/ isFixedOn ax <$> props_at (take a p) t = Some true) ->
  routeInvalidation_at ax k p t
  = method_at (on_props mutated) (take a p) t.
Proof.
  induction k as [|k IH]; intros a t Hak Hkp Hp Hnf Hstop.
  - assert (a = 0) as -> by lia.
    cbn [routeInvalidation_at]. rewrite take_0. unfold props_at.
    cbn [widget_at fmap option_fmap option_map].
    destruct (isFixedOn ax (props t)); reflexivity.
  - destruct (widget_at_take p t (S k) Hp) as [wk Hwk].
    assert (Hcur : props_at (take (S k) p) t = Some (props wk)).
    { unfold props_at. rewrite Hwk. reflexivity. }
    cbn [routeInvalidation_at]. rewrite Hcur.
    destruct (decide (a = S k)) as [->|Hne].
    + destruct Hstop as [Hstop|Hstop]; [discriminate|].
      rewrite Hcur in Hstop. injection Hstop as ->. reflexivity.
    + assert (Hfix : isFixedOn ax (props wk) = false).
      { specialize (Hnf (S k) ltac:(lia)). rewrite Hcur in Hnf.
        injection Hnf as ->. reflexivity. }
      rewrite Hfix. apply IH; [lia|lia|exact Hp| |exact Hstop].
      intros j Hj. apply Hnf. lia.
Qed.

(** Whatever the policies, the walk writes to at most one widget, on the
    path of its caller, and only through the guarded invalidation. *)
Lemma routeInvalidation_at_cases ax p k t :
  routeInvalidation_at ax k p t = t
  \/ exists a, a <= k
       /\ routeInvalidation_at ax k p t
          = method_at (on_props mutated) (take a p) t.
Proof.
  induction k as [|k IH]; cbn [routeInvalidation_at].
  - destruct (props_at (take 0 p) t) as [cur|]; [|left; reflexivity].
    right. exists 0. split; [lia|]. destruct (isFixedOn ax cur); reflexivity.
  - destruct (props_at (take (S k) p) t) as [cur|]; [|left; reflexivity].
    destruct (isFixedOn ax cur).
    + right. exists (S k). split; [lia|reflexivity].
    + destruct IH as [E|(a & Ha & E)]; [left; exact E|].
      right. exists a. split; [lia|exact E].
Qed.

End Tree.

Section Update.
Context {A : Type} `{Ops A}.
Variable layout_apply : LayoutPass (A := A).
Implicit Type w t : Widget A.
Implicit Type q p : Path.
Local Open Scope nat_scope.

Local Abbreviation update_placed := (update_placed layout_apply).
Local Abbreviation update := (update layout_apply).
Local Abbreviation recursiveRouteUpdate_at := (recursiveRouteUpdate_at layout_apply).
Local Abbreviation recursiveRouteUpdate := (recursiveRouteUpdate layout_apply).

Lemma update_placed_unfold placed n pr cs :
  update_placed placed (Node n pr cs)
  = Node (S n) (validate (placed pr))
      (imap (update_child layout_apply (layout_apply (placed pr) (map props cs))) cs).
Proof.
  cbn [BaseWidget.update_placed]. f_equal.
  generalize (layout_apply (placed pr) (map props cs)). intros pass.
  assert (G : forall k l,
    (fix each (i : nat) (l : list (Widget A)) {struct l} : list (Widget A) :=
       match l with
       | [] => []
       | c :: l' =>
           (if isExpanding (pass i (props c))
            then update_placed (pass i) c
            else on_props (pass i) c) :: each (S i) l'
       end) k l
    = imap (fun i => update_child layout_apply pass (k + i)) l).
  { intros k l. revert k. induction l as [|c l IH]; intros k; [reflexivity|].
    cbn [imap]. rewrite Nat.add_0_r. unfold update_child at 1. f_equal.
    rewrite IH. apply imap_ext. intros i x _. simpl.
    rewrite Nat.add_succ_r. reflexivity. }
  rewrite G. reflexivity.
Qed.

Lemma update_placed_valid placed w : valid (props (update_placed placed w)) = true.
Proof. destruct w. rewrite update_placed_unfold. reflexivity. Qed.

Lemma update_placed_calls placed w :
  updateCalls (update_placed placed w) = S (updateCalls w).
Proof. destruct w. rewrite update_placed_unfold. reflexivity. Qed.

Lemma update_placed_keeps_shape placed : keeps_shape (update_placed placed).
Proof.
  intros q. revert placed. induction q as [|i q IH]; intros placed w.
  - split; intros _; eexists; reflexivity.
  - destruct w as [n pr cs]. rewrite update_placed_unfold.
    cbn [widget_at children]. rewrite list_lookup_imap.
    destruct (cs !! i) as [c|]; cbn [fmap option_fmap option_map]; [|reflexivity].
    unfold update_child. destruct (isExpanding _).
    + apply IH.
    + apply on_props_keeps_shape.
Qed.

Lemma update_keeps_shape : keeps_shape update.
Proof. apply update_placed_keeps_shape. Qed.

Lemma valid_at_update q t :
  is_Some (widget_at q t) -> valid_at q (method_at update q t) = Some true.
Proof.
  intros [w Hw]. unfold valid_at, props_at.
  rewrite widget_at_method_at, Hw. cbn. f_equal. apply update_placed_valid.
Qed.

Lemma calls_at_update q t :
  calls_at q (method_at update q t) = S <$> calls_at q t.
Proof.
  unfold calls_at. rewrite widget_at_method_at.
  destruct (widget_at q t) as [w|]; [|reflexivity].
  cbn. f_equal. apply update_placed_calls.
Qed.

Lemma take_not_prefix p j k : j < k -> k <= length p -> ~ take k p `prefix_of` take j p.
Proof.
  intros Hjk Hk Hp. apply prefix_length in Hp.
  rewrite !length_take_le in Hp by lia. lia.
Qed.

(** The climb of [recursiveRouteUpdate()] from depth [k], when the widgets
    of depths [a..] above it are invalid and the climb stops at depth
    [a]. *)
Lemma recursiveRouteUpdate_at_spec p a t k :
  is_Some (widget_at p t) ->
  a <= k -> k <= length p ->
  (forall j, a <= j < k -> valid_at (take j p) t = Some false) ->
  (a = 0 \/ valid_at (take (a - 1) p) t = Some true) ->
  (forall j, a <= j <= k ->
     valid_at (take j p) (recursiveRouteUpdate_at k p t) = Some true)
  /\ calls_at (take a p) (recursiveRouteUpdate_at k p t)
     = S <$> calls_at (take a p) t
  /\ (forall q, is_Some (widget_at q (recursiveRouteUpdate_at k p t))
               <-> is_Some (widget_at q t)).
Proof.
  intros Hp. induction k as [|k IH]; intros Hak Hkp Hinv Htop.
  - assert (a = 0) as -> by lia. cbn [BaseWidget.recursiveRouteUpdate_at].
    split; [|split].
    + intros j Hj. assert (j = 0) as -> by lia.
      apply valid_at_update. rewrite take_0. eexists; reflexivity.
    + apply calls_at_update.
    + intros q. apply (method_at_keeps_shape _ _ update_keeps_shape).
  - cbn [BaseWidget.recursiveRouteUpdate_at].
    destruct (decide (a = S k)) as [->|Hne].
    + destruct Htop as [Htop|Htop]; [discriminate|].
      replace (S k - 1) with k in Htop by lia. rewrite Htop.
      split; [|split].
      * intros j Hj. assert (j = S k) as -> by lia.
        apply valid_at_update. apply widget_at_take. exact Hp.
      * apply calls_at_update.
      * intros q. apply (method_at_keeps_shape _ _ update_keeps_shape).
    + rewrite (Hinv k) by lia.
      destruct IH as (IHv & IHc & IHs); [lia|lia|intros; apply Hinv; lia|exact Htop|].
      split; [|split].
      * intros j Hj. destruct (decide (j = S k)) as [->|Hjk].
        -- apply valid_at_update. apply IHs. apply widget_at_take. exact Hp.
        -- rewrite valid_at_frame by (apply take_not_prefix; lia).
           apply IHv. lia.
      * rewrite calls_at_frame by (apply take_not_prefix; lia). exact IHc.
      * intros q. rewrite <- IHs.
        apply (method_at_keeps_shape _ _ update_keeps_shape).
Qed.

Lemma recursiveRouteUpdate_at_take p t k :
  k <= length p ->
  recursiveRouteUpdate_at k (take k p) t = recursiveRouteUpdate_at k p t.
Proof.
  revert p. induction k as [|k IH]; intros p Hk.
  - cbn [BaseWidget.recursiveRouteUpdate_at]. rewrite !take_0. reflexivity.
  - cbn [BaseWidget.recursiveRouteUpdate_at].
    rewrite !take_take. rewrite Nat.min_id. replace (k `min` S k) with k by lia.
    destruct (valid_at (take k p) t) as [[]|]; try reflexivity.
    f_equal. rewrite <- (IH (take (S k) p)) by (rewrite length_take_le; lia).
    rewrite take_take. replace (k `min` S k) with k by lia.
    apply IH. lia.
Qed.

End Update.

Section Cascade.
Context {A : Type} `{Ops A}.
Implicit Type w t : Widget A.
Implicit Type q : Path.

Lemma props_at_inherit_theme th q t :
  props_at q (inherit_theme th t)
  = (fun pr => if themeOverride pr then pr else with_theme th pr)
      <$> props_at q t.
Proof.
  unfold props_at. revert t. induction q as [|i q IH]; intros [n pr cs].
  - reflexivity.
  - cbn [inherit_theme widget_at children]. rewrite list_lookup_fmap.
    destruct (cs !! i) as [c|]; [apply IH|reflexivity].
Qed.

Lemma props_at_set_theme th q t :
  props_at q (set_theme th t)
  = (fun pr => if decide (q = []) then with_theme th pr
               else if themeOverride pr then pr else with_theme th pr)
      <$> props_at q t.
Proof.
  destruct t as [n pr cs]. destruct q as [|i q].
  - reflexivity.
  - unfold props_at. cbn [set_theme widget_at children].
    rewrite list_lookup_fmap.
    destruct (cs !! i) as [c|]; [|reflexivity].
    cbn [fmap option_fmap option_map].
    apply (props_at_inherit_theme th q c).
Qed.

Lemma props_at_set_disabled b q t :
  props_at q (set_disabled b t) = with_disabled b <$> props_at q t.
Proof.
  unfold props_at. revert t. induction q as [|i q IH]; intros [n pr cs].
  - reflexivity.
  - cbn [set_disabled widget_at children]. rewrite list_lookup_fmap.
    destruct (cs !! i) as [c|]; [apply IH|reflexivity].
Qed.

End Cascade.

Section Bypass.
Context {A : Type} `{Ops A}.
Implicit Type pr : Props A.
Local Open Scope nat_scope.

Lemma mutated_valid pr :
  valid (mutated pr) = match bypassDepth pr with O => false | S _ => valid pr end.
Proof. unfold mutated. destruct (bypassDepth pr); reflexivity. Qed.

Lemma mutated_bypassDepth pr : bypassDepth (mutated pr) = bypassDepth pr.
Proof. unfold mutated. destruct (bypassDepth pr) eqn:E; [exact E|exact E]. Qed.

Lemma mutate_valid (m : Mutation A) pr :
  valid (mutate m pr) = match bypassDepth pr with O => false | S _ => valid pr end.
Proof. destruct m; cbn [mutate]; unfold set_x, set_y, set_width, set_height, set_padding; rewrite mutated_valid; reflexivity. Qed.

Lemma mutate_bypassDepth (m : Mutation A) pr :
  bypassDepth (mutate m pr) = bypassDepth pr.
Proof. destruct m; cbn [mutate]; unfold set_x, set_y, set_width, set_height, set_padding; rewrite mutated_bypassDepth; reflexivity. Qed.

Lemma bypassCalls_depth cs : forall pr pr',
  bypassCalls cs pr = Returned pr' ->
  bypassDepth pr' + ends cs = bypassDepth pr + begins cs
  /\ valid pr' = valid pr.
Proof.
  induction cs as [|c cs IH]; intros pr pr' E.
  - injection E as <-. simpl. split; [lia|reflexivity].
  - destruct c; cbn [bypassCalls] in E.
    + apply IH in E as [E1 E2]. simpl in *. split; [lia|exact E2].
    + unfold endBypassUpdate in E. destruct (bypassDepth pr) as [|n] eqn:D;
        [discriminate|]. cbn [bind] in E.
      apply IH in E as [E1 E2]. simpl in *. split; [lia|exact E2].
Qed.

(** Nested pairs never throw. *)
Lemma bypassCalls_nested n pr :
  exists pr', bypassCalls (replicate n Begin ++ replicate n End_) pr = Returned pr'
              /\ bypassDepth pr' = bypassDepth pr.
Proof.
  revert pr. induction n as [|n IH]; intros pr.
  - exists pr. split; reflexivity.
  - cbn [replicate app bypassCalls].
    replace (replicate n Begin ++ End_ :: replicate n End_)
      with ((replicate n Begin ++ replicate n End_) ++ [End_]).
    2:{ rewrite <- app_assoc. f_equal. symmetry.
        change (End_ :: replicate n End_) with (replicate (S n) End_).
        rewrite replicate_S_end. reflexivity. }
    assert (G : forall cs1 cs2 (p1 p2 : Props A),
               bypassCalls cs1 p1 = Returned p2 ->
               bypassCalls (cs1 ++ cs2) p1 = bypassCalls cs2 p2).
    { induction cs1 as [|c cs1 IH1]; intros cs2 p1 p2 E.
      - injection E as <-. reflexivity.
      - destruct c; cbn [app bypassCalls] in *.
        + apply IH1. exact E.
        + destruct (endBypassUpdate p1); [|discriminate].
          cbn [bind] in *. apply IH1. exact E. }
    destruct (IH (beginBypassUpdate pr)) as (pr1 & E1 & D1).
    rewrite (G _ _ _ _ E1). cbn [bypassCalls]. unfold endBypassUpdate.
    rewrite D1. cbn. eexists. split; reflexivity.
Qed.

End Bypass.
Section Routing.
Context {A : Type} `{Ops A}.
Implicit Type w t : Widget A.
Implicit Type q p : Path.
Local Open Scope nat_scope.

(** A guarded invalidation somewhere in the tree, seen from the widget at
    [q]. *)
Lemma valid_at_mutated x q t :
  valid_at q (method_at (on_props mutated) x t)
  = (fun pr => if decide (q = x)
               then match bypassDepth pr with
                    | O => false
                    | S _ => valid pr
                    end
               else valid pr) <$> props_at q t.
Proof.
  unfold valid_at. rewrite props_at_on_props.
  destruct (decide (q = x)); destruct (props_at q t) as [pr|];
    cbn; try reflexivity.
  rewrite mutated_valid_eq. reflexivity.
Qed.

(** Whatever the policies, a widget whose [bypassDepth] is above zero
    keeps its valid flag through [routeInvalidation()], wherever the call
    starts. *)
Lemma routeInvalidation_spares_bypassed ax p q t pr :
  props_at q t = Some pr -> 0 < bypassDepth pr ->
  valid_at q (routeInvalidation ax p t) = Some (valid pr).
Proof.
  intros Hq Hd. unfold routeInvalidation.
  destruct (routeInvalidation_at_cases ax p (length p) t)
    as [E|(a & _ & E)]; rewrite E.
  - unfold valid_at. rewrite Hq. reflexivity.
  - rewrite valid_at_mutated, Hq. cbn.
    destruct (decide (q = take a p)); [|reflexivity].
    destruct (bypassDepth pr); [lia|reflexivity].
Qed.



End Routing.

Section Validation.
Context {A : Type} `{Ops A}.
Variable layout_apply : LayoutPass (A := A).
Implicit Type w t : Widget A.
Implicit Type q p : Path.
Local Open Scope nat_scope.

(** C3, as amended.  Let the ancestors of depths [a .. length p - 1] of the
    widget at [p] be invalid, and the one above them valid or missing
    (depth [a] is where the climb stops; [a = length p] says that the
    caller has no parent or a valid one).  Whatever the layout strategy:
    with no parent or a valid parent [recursiveRouteUpdate()] is
    [update()] on the caller; otherwise it is the parent's
    [recursiveRouteUpdate()] followed by [update()] on the caller; and
    after the call [update()] has run once more on the widget of depth
    [a], and every widget from that one down to the caller is valid. *)
Theorem recursiveRouteUpdate_validates_dirty_chain (p : Path) (a : nat) t :
  is_Some (widget_at p t) ->
  a <= length p ->
  (forall j, a <= j < length p -> valid_at (take j p) t = Some false) ->
  (a = 0 \/ valid_at (take (a - 1) p) t = Some true) ->
  (a = length p ->
     recursiveRouteUpdate layout_apply p t
     = method_at (update layout_apply) p t)
  /\ (a < length p ->
        recursiveRouteUpdate layout_apply p t
        = method_at (update layout_apply) p
            (recursiveRouteUpdate layout_apply (take (length p - 1) p) t))
  /\ calls_at (take a p) (recursiveRouteUpdate layout_apply p t)
     = S <$> calls_at (take a p) t
  /\ (forall j, a <= j <= length p ->
        valid_at (take j p) (recursiveRouteUpdate layout_apply p t)
        = Some true).
Proof.
  intros Hp Ha Hinv Htop.
  assert (Ht : take (length p) p = p) by (apply take_ge; lia).
  destruct (recursiveRouteUpdate_at_spec layout_apply p a t (length p))
    as (Hv & Hc & _); [exact Hp|lia|lia|exact Hinv|exact Htop|].
  fold (recursiveRouteUpdate layout_apply p t) in Hv, Hc.
  split; [|split; [|split]].
  - intros ->. unfold recursiveRouteUpdate.
    destruct (length p) as [|k] eqn:L;
      cbn [recursiveRouteUpdate_at]; rewrite Ht; [reflexivity|].
    destruct Htop as [Htop|Htop]; [discriminate|].
    replace (S k - 1) with k in Htop by lia. rewrite Htop. reflexivity.
  - intros Hlt. unfold recursiveRouteUpdate at 1.
    destruct (length p) as [|k] eqn:L; [lia|].
    cbn [recursiveRouteUpdate_at]. rewrite Ht.
    rewrite (Hinv k) by lia. f_equal.
    replace (S k - 1) with k by lia. unfold recursiveRouteUpdate.
    rewrite length_take_le by lia.
    symmetry. apply recursiveRouteUpdate_at_take. lia.
  - exact Hc.
  - exact Hv.
Qed.

End Validation.

Section Geometry.
Local Open Scope Q_scope.

(** C7.  In exact arithmetic, for a widget of width [Wd], height [Ht] and
    the same padding [P] on its four sides, [_updateClipGraphic()] leaves a
    clip graphic of width [Wd - 2P] and height [Ht - 2P] at [(P, P)] that
    is not renderable. *)
Theorem clip_graphic_of_uniform_padding (pr : Props Q) (P : Q) :
  padding pr = Padding.setAllTo P ->
  let clip := clipGraphic (_updateClipGraphic pr) in
  ClipGraphic.width clip == width pr - 2 * P
  /\ ClipGraphic.height clip == height pr - 2 * P
  /\ ClipGraphic.x clip = P
  /\ ClipGraphic.y clip = P
  /\ ClipGraphic.renderable clip = false.
Proof.
  intros HP. cbn. rewrite HP. cbn.
  repeat split; try reflexivity; ring.
Qed.

(** The numbers of [BaseWidget-spec.js] l.137-151, in binary64: a widget
    with a padding of 4 whose width and height are set to 400 has a clip
    graphic 392 by 392 at (4, 4) that is not renderable. *)
Lemma clip_graphic_of_test_widget :
  clipGraphic
    (set_height 400%float
       (set_width 400%float (Scenario.widget 20%float 20%float 4%float)))
  = ClipGraphic.mk 4%float 4%float 392%float 392%float false.
Proof. vm_compute. reflexivity. Qed.

End Geometry.

Section Inheritance.
Context {A : Type} `{Ops A}.


End Inheritance.

Section ChildSet.
Context {A : Type} `{Ops A}.
Implicit Type w t c : Widget A.
Implicit Type q p : Path.
Local Open Scope nat_scope.

Lemma widget_at_app q r t :
  widget_at (q ++ r) t = widget_at q t ≫= widget_at r.
Proof.
  revert t. induction q as [|i q IH]; intros t; [reflexivity|].
  cbn [app widget_at]. destruct (children t !! i) as [c|]; [apply IH|].
  reflexivity.
Qed.

Lemma inherit_theme_isFixedOn ax th c :
  isFixedOn ax (props (inherit_theme th c)) = isFixedOn ax (props c).
Proof.
  destruct c as [n pr cs]. cbn. destruct (themeOverride pr); [reflexivity|].
  destruct ax as [[]|]; reflexivity.
Qed.

(** The tree right after the child has been appended, before the
    invalidation is routed. *)
Lemma append_child_props q c t :
  props_at q (method_at (append_child c) q t) = props_at q t.
Proof.
  unfold props_at. rewrite widget_at_method_at.
  destruct (widget_at q t) as [w|]; reflexivity.
Qed.

Lemma append_child_new q c t w :
  widget_at q t = Some w ->
  widget_at (q ++ [length (children w)]) (method_at (append_child c) q t)
  = Some (inherit_theme (theme (props w)) c).
Proof.
  intros Hw. rewrite widget_at_app, widget_at_method_at, Hw. cbn.
  rewrite lookup_app_r by lia. rewrite Nat.sub_diag. reflexivity.
Qed.

(** A child-set change on a widget whose [bypassDepth] is above zero
    leaves its valid flag as it was. *)
Lemma addChild_bypassed q c t pr :
  props_at q t = Some pr -> 0 < bypassDepth pr ->
  valid_at q (addChild q c t) = Some (valid pr).
Proof.
  intros Hq Hd. unfold addChild.
  destruct (widget_at q t) as [w|] eqn:Hw;
    [|unfold props_at in Hq; rewrite Hw in Hq; discriminate].
  apply routeInvalidation_spares_bypassed; [|exact Hd].
  rewrite append_child_props. exact Hq.
Qed.

(** A child-set change on a widget at depth zero invalidates it exactly
    when the walk from the new child stops at it. *)
Lemma addChild_not_bypassed q c t pr :
  props_at q t = Some pr -> bypassDepth pr = 0 ->
  valid_at q (addChild q c t)
  = Some (if stops_at_parent q pr c then false else valid pr).
Proof.
  intros Hq Hd. unfold addChild, stops_at_parent.
  destruct (widget_at q t) as [w|] eqn:Hw;
    [|unfold props_at in Hq; rewrite Hw in Hq; discriminate].
  set (t1 := method_at (append_child c) q t).
  set (p := q ++ [length (children w)]).
  assert (Hq1 : props_at q t1 = Some pr)
    by (unfold t1; rewrite append_child_props; exact Hq).
  assert (Hp1 : props_at p t1
                = Some (props (inherit_theme (theme (props w)) c))).
  { unfold props_at, p, t1. rewrite (append_child_new q c t w Hw).
    reflexivity. }
  assert (Lp : length p = S (length q))
    by (unfold p; rewrite length_app; simpl; lia).
  assert (Tp : take (S (length q)) p = p) by (apply take_ge; lia).
  assert (Tq : take (length q) p = q) by (unfold p; apply take_app_length).
  assert (Hmark : forall x, x <> q ->
            valid_at q (method_at (on_props mutated) x t1) = Some (valid pr)).
  { intros x Hx. rewrite valid_at_mutated, Hq1. cbn.
    rewrite decide_False by congruence. reflexivity. }
  assert (Hhere : valid_at q (method_at (on_props mutated) q t1) = Some false).
  { rewrite valid_at_mutated, Hq1. cbn.
    rewrite decide_True by reflexivity. rewrite Hd. reflexivity. }
  unfold routeInvalidation. rewrite Lp. cbn [routeInvalidation_at].
  rewrite Tp, Hp1, inherit_theme_isFixedOn.
  destruct (isFixedOn None (props c)); cbn [negb andb].
  - apply Hmark. intros E. apply (f_equal length) in E. lia.
  - destruct (length q) as [|k] eqn:Lq.
    + assert (q = []) as Eq by (destruct q; [reflexivity|discriminate]).
      cbn [routeInvalidation_at]. rewrite take_0.
      assert (Hr : props_at [] t1 = Some pr) by (rewrite <- Eq; exact Hq1).
      rewrite Hr. rewrite bool_decide_eq_true_2 by exact Eq.
      rewrite orb_true_r.
      destruct (isFixedOn None pr); rewrite <- Eq; exact Hhere.
    + cbn [routeInvalidation_at]. rewrite Tq, Hq1.
      assert (Nq : q <> []) by (intros ->; discriminate).
      rewrite bool_decide_eq_false_2 by exact Nq. rewrite orb_false_r.
      destruct (isFixedOn None pr); [exact Hhere|].
      destruct (routeInvalidation_at_cases None p k t1)
        as [E|(a & Ha & E)]; rewrite E.
      * unfold valid_at. rewrite Hq1. reflexivity.
      * apply Hmark. intros E'. apply (f_equal length) in E'.
        rewrite length_take_le in E' by lia. lia.
Qed.

End ChildSet.

Section Instances.
Local Open Scope nat_scope.



(** An invalid root, a valid child, an invalid grandchild and the caller
    below it: the climb of [recursiveRouteUpdate()] stops at the
    grandchild.  The root, the highest invalid ancestor of the caller, is
    not updated and stays invalid. *)
Lemma recursiveRouteUpdate_stops_below_valid_ancestor :
  let fx := Scenario.widget (A := Q) 100%Q 100%Q 4%Q in
  let t := Scenario.chain4 (invalidate fx) fx (invalidate fx) fx in
  let r := recursiveRouteUpdate Scenario.keep_layout [0; 0; 0] t in
  valid_at [0; 0] t = Some false
  /\ valid_at [] t = Some false
  /\ calls_at [0; 0] r = Some 1
  /\ calls_at [] r = Some 0
  /\ valid_at [] r = Some false
  /\ valid_at [] r <> Some true.
Proof.
  cbv zeta. repeat split; try reflexivity. vm_compute. discriminate.
Qed.



Lemma recursiveRouteUpdate_validates_dirty_chain_witness :
  let fx := Scenario.widget (A := Q) 100%Q 100%Q 4%Q in
  let t := Scenario.chain3 fx (invalidate fx) fx in
  let r := recursiveRouteUpdate Scenario.keep_layout [0; 0] t in
  (1 = 2 -> r = method_at (update Scenario.keep_layout) [0; 0] t)
  /\ (1 < 2 ->
        r = method_at (update Scenario.keep_layout) [0; 0]
              (recursiveRouteUpdate Scenario.keep_layout
                 (take (2 - 1) [0; 0]) t))
  /\ calls_at (take 1 [0; 0]) r = S <$> calls_at (take 1 [0; 0]) t
  /\ (forall j, 1 <= j <= 2 -> valid_at (take j [0; 0]) r = Some true).
Proof.
  cbv zeta.
  apply (recursiveRouteUpdate_validates_dirty_chain
           Scenario.keep_layout [0; 0] 1).
  - eexists; reflexivity.
  - simpl; lia.
  - intros j Hj. assert (j = 1) as -> by (simpl in Hj; lia). reflexivity.
  - right. reflexivity.
Defined.

Lemma clip_graphic_of_uniform_padding_witness :
  let pr := Scenario.widget (A := Q) 400%Q 300%Q 4%Q in
  let clip := clipGraphic (_updateClipGraphic pr) in
  padding pr = Padding.setAllTo 4%Q
  /\ (ClipGraphic.width clip == 400 - 2 * 4)%Q
  /\ (ClipGraphic.height clip == 300 - 2 * 4)%Q
  /\ ClipGraphic.x clip = 4%Q
  /\ ClipGraphic.y clip = 4%Q
  /\ ClipGraphic.renderable clip = false.
Proof.
  cbv zeta. split; [reflexivity|].
  apply (clip_graphic_of_uniform_padding
           (Scenario.widget (A := Q) 400%Q 300%Q 4%Q) 4%Q).
  reflexivity.
Defined.



End Instances.

End BaseWidgetFacts.

(* ===================================================================== *)
(** * Properties of Slider.js *)
(* ===================================================================== *)

Module SliderFacts.
Import JsNum BaseWidget Slider.

Section Generic.
Context {A : Type} `{Ops A} `{StConst}.
Implicit Type s : Slider.t A.

Lemma get_value_eq s :
  get_value s =
    (match valueCB s with Some cb => cb (raw_value s) | None => raw_value s end,
     with__value (raw_value s) s).
Proof.
  unfold get_value, raw_value, travel, position.
  destruct (decide (orientation s = HORIZONTAL)); simpl;
    destruct (valueCB s); reflexivity.
Qed.

Lemma mutated_bypassed (p : Props A) n :
  bypassDepth p = S n -> mutated p = p.
Proof. unfold mutated. intros ->. reflexivity. Qed.

Lemma set_value_eq (val : A) s :
  set_value val s =
    Returned
      (emit "changed"
         (with_button
            (if decide (orientation s = HORIZONTAL)
             then with_x (((clamp val s - minValue s) / (maxValue s - minValue s))
                            * (width (track s) - width (button s)))%js (button s)
             else with_y (((clamp val s - minValue s) / (maxValue s - minValue s))
                            * (height (track s) - height (button s)))%js (button s))
            (with_oldValue (Some (clamp val s)) (with__value (clamp val s) s)))).
Proof.
  unfold set_value, clamp, orientation. simpl.
  destruct (decide (_orientation s = HORIZONTAL)); simpl; destruct s as [b o mn mx v ov cb tr bt hw hh em]; simpl; destruct bt; reflexivity.
Qed.


(** The getter stores what it computes and hands the same number, or the
    callback's image of it, to the caller. *)
Lemma get_value_stores s : _value (snd (get_value s)) = raw_value s.
Proof. rewrite get_value_eq. reflexivity. Qed.

Lemma set_orientation_horizontal s :
  exists s', set_orientation HORIZONTAL s = Returned s'
             /\ orientation s' = HORIZONTAL.
Proof.
  unfold set_orientation. rewrite decide_True by reflexivity.
  eexists. split; reflexivity.
Qed.

End Generic.

Section Exact.
Context `{StConst}.
Implicit Type s : Slider.t Q.
Local Open Scope Q_scope.

Lemma Q_clamp_range (v mn mx : Q) :
  mn <= mx -> mn <= Q_min (Q_max v mn) mx /\ Q_min (Q_max v mn) mx <= mx.
Proof.
  intros Hm. unfold Q_min, Q_max.
  destruct (Qle_bool v mn) eqn:E1.
  - destruct (Qle_bool mn mx) eqn:E2; split; lra.
  - assert (~ v <= mn) by (rewrite <- Qle_bool_iff; congruence).
    destruct (Qle_bool v mx) eqn:E2.
    + apply Qle_bool_iff in E2. lra.
    + lra.
Qed.

Lemma Q_clamp_id (v mn mx : Q) :
  mn <= v -> v <= mx -> Q_min (Q_max v mn) mx == v.
Proof.
  intros H1 H2. unfold Q_min, Q_max.
  destruct (Qle_bool v mn) eqn:E1.
  - apply Qle_bool_iff in E1.
    destruct (Qle_bool mn mx) eqn:E2; [lra|].
    assert (~ mn <= mx) by (rewrite <- Qle_bool_iff; congruence). lra.
  - destruct (Qle_bool v mx) eqn:E2; [lra|].
    assert (~ v <= mx) by (rewrite <- Qle_bool_iff; congruence). lra.
Qed.

Lemma Q_linear_range (mn mx d pos : Q) :
  mn <= mx -> 0 < d -> 0 <= pos -> pos <= d ->
  mn <= ((mx - mn) / d) * pos + mn /\ ((mx - mn) / d) * pos + mn <= mx.
Proof.
  intros Hm Hd H0 H1.
  assert (E : ((mx - mn) / d) * pos == (mx - mn) * (pos / d)) by (field; lra).
  rewrite E.
  assert (0 <= pos / d) by (apply Qle_shift_div_l; lra).
  assert (pos / d <= 1) by (apply Qle_shift_div_r; lra).
  split; nra.
Qed.

Lemma Q_round_trip (mn mx d v v' : Q) :
  ~ mx - mn == 0 -> ~ d == 0 -> v' == v ->
  ((mx - mn) / d) * (((v' - mn) / (mx - mn)) * d) + mn == v.
Proof. intros ? ? ->. field. split; assumption. Qed.

Lemma raw_value_after_set (val : Q) s s' :
  set_value val s = Returned s' ->
  raw_value s' =
    ((maxValue s - minValue s) / travel s)
      * (((clamp val s - minValue s) / (maxValue s - minValue s)) * travel s)
      + minValue s.
Proof.
  rewrite set_value_eq. intros [= <-].
  unfold raw_value, travel, position, orientation. simpl.
  destruct (decide (_orientation s = HORIZONTAL)); reflexivity.
Qed.

End Exact.
Section Claims.
Context `{StConst}.
Local Open Scope Q_scope.

(** C10.  Reading [value] writes [_value].  For every number
    representation and every slider, with or without a callback, the
    getter leaves the slider with [_value] overwritten by the number it
    computed from the button's position (every other field as before) and
    returns that number, passed through [valueCB] when one is set; and
    there are sliders with a callback on which the read changes the
    state. *)
Theorem value_getter_overwrites_value :
  (forall (A : Type) (O : Ops A) (s : Slider.t A),
      snd (get_value s) = with__value (raw_value s) s
      /\ fst (get_value s)
         = match valueCB s with
           | Some cb => cb (raw_value s)
           | None => raw_value s
           end)
  /\ (exists (s : Slider.t Q) (cb : Q -> Q),
        valueCB s = Some cb
        /\ _value (snd (get_value s)) = raw_value s
        /\ ~ _value (snd (get_value s)) == _value s
        /\ ~ fst (get_value s) == _value (snd (get_value s))).
Proof.
  split.
  - intros A O s. rewrite get_value_eq. split; reflexivity.
  - exists (with_button (with_x 186 (button (Scenario.slider 392 0 100)))
              (with__orientation HORIZONTAL
                 (with_valueCB (Some (fun v => v + 1))
                    (Scenario.slider 392 0 100)))).
    exists (fun v => v + 1).
    split; [reflexivity|].
    rewrite get_value_eq. simpl.
    unfold raw_value, travel, position, orientation. simpl.
    destruct (decide (HORIZONTAL = HORIZONTAL)) as [_|N]; [|contradiction].
    split; [reflexivity|]. split; intros E; vm_compute in E; discriminate.
Qed.

(** C8.  An orientation that is neither [HORIZONTAL] nor [VERTICAL] makes
    the setter throw at once, with every field of the slider, the stored
    orientation included, as it was. *)
Theorem set_orientation_rejects_other_values
    (A : Type) (O : Ops A) (s : Slider.t A) (val : JsValue) :
  val <> HORIZONTAL -> val <> VERTICAL ->
  set_orientation val s
  = Thrown
      (Error "Slider.orientation must be either ST.HORIZONTAL or UI.VERTICAL")
      s.
Proof.
  intros Hh Hv. unfold set_orientation.
  rewrite decide_False by assumption.
  rewrite decide_False by assumption.
  reflexivity.
Qed.

(** C5, as amended.  For every number representation, with no callback
    the getter returns the number it stores in [_value], computed from
    the button's position without any clamp, and an assignment returns
    with [_value] and [oldValue] at the assigned value clamped by
    [Math.min(Math.max(val, minValue), maxValue)], callback or not.  In
    exact arithmetic the number the getter computes lies in [minValue,
    maxValue] when the range is not inverted, the track is longer than the
    button and the button sits within its travel; and the clamped value
    lies in the range when the range is not inverted. *)
Theorem value_within_range_on_track :
  (forall (A : Type) (O : Ops A) (s : Slider.t A),
      valueCB s = None ->
      fst (get_value s) = raw_value s
      /\ _value (snd (get_value s)) = raw_value s)
  /\ (forall s : Slider.t Q,
        minValue s <= maxValue s ->
        0 < travel s ->
        0 <= position s <= travel s ->
        minValue s <= raw_value s <= maxValue s)
  /\ (forall (A : Type) (O : Ops A) (s : Slider.t A) (val : A),
        exists s', set_value val s = Returned s'
                   /\ _value s' = clamp val s
                   /\ oldValue s' = Some (clamp val s))
  /\ (forall (s : Slider.t Q) (val : Q),
        minValue s <= maxValue s ->
        minValue s <= clamp val s <= maxValue s).
Proof.
  split; [|split; [|split]].
  - intros A O s Hcb. rewrite get_value_eq, Hcb. split; reflexivity.
  - intros s Hr Ht [Hp0 Hp1]. unfold raw_value. cbn.
    apply Q_linear_range; assumption.
  - intros A O s val. rewrite set_value_eq. eexists.
    split; [reflexivity|]. split; reflexivity.
  - intros s val Hr. unfold clamp. cbn. apply Q_clamp_range. exact Hr.
Qed.

(** C6, as amended.  On binary64 numbers, a horizontal slider with a
    track 392 wide, a button 20 wide and the range 0..100 puts its button
    at x = 186 when [value = 50] is assigned, and reading [value] back
    returns 50.  In exact arithmetic, on every slider with no callback,
    [minValue < maxValue] and a track longer or shorter than the button,
    assigning an in-range value and reading it back returns that value. *)
Theorem value_set_then_get :
  (forall s : Slider.t float,
      orientation s = HORIZONTAL ->
      width (track s) = 392%float ->
      width (button s) = 20%float ->
      minValue s = 0%float ->
      maxValue s = 100%float ->
      valueCB s = None ->
      exists s', set_value 50%float s = Returned s'
                 /\ x (button s') = 186%float
                 /\ fst (get_value s') = 50%float)
  /\ (forall (s : Slider.t Q) (v : Q),
        valueCB s = None ->
        minValue s < maxValue s ->
        ~ travel s == 0 ->
        minValue s <= v <= maxValue s ->
        exists s', set_value v s = Returned s'
                   /\ fst (get_value s') == v).
Proof.
  split.
  - intros s Ho Htw Hbw Hmn Hmx Hcb.
    rewrite set_value_eq. eexists. split; [reflexivity|].
    rewrite get_value_eq. unfold raw_value, travel, position, clamp.
    unfold orientation in *. simpl. rewrite Hcb.
    destruct (decide (_orientation s = HORIZONTAL)) as [_|N]; [|contradiction].
    simpl. rewrite Htw, Hbw, Hmn, Hmx. split; reflexivity.
  - intros s v Hcb Hr Ht [Hv0 Hv1].
    destruct (set_value v s) as [s'|e s'] eqn:E;
      [|rewrite set_value_eq in E; discriminate].
    exists s'. split; [reflexivity|].
    rewrite get_value_eq.
    assert (Hcb' : valueCB s' = None).
    { rewrite set_value_eq in E. injection E as <-. exact Hcb. }
    rewrite Hcb'. cbn [fst]. rewrite (raw_value_after_set _ _ _ E).
    apply Q_round_trip; [lra|assumption|].
    unfold clamp. simpl. apply Q_clamp_id; assumption.
Qed.

End Claims.

(** A slider at its maximum whose button is then widened reads a value
    above [maxValue], and stores it.  (Track 392, button 20 widened to
    200, range 0..100: the read gives 100 / 192 * 372 = 193.75.) *)
Lemma value_above_maxValue_after_button_resize :
  valueCB Scenario.widened_button = None
  /\ (minValue Scenario.widened_button <= maxValue Scenario.widened_button)%Q
  /\ (fst (get_value (H0 := Scenario.consts) Scenario.widened_button) == 775 # 4)%Q
  /\ ~ (fst (get_value (H0 := Scenario.consts) Scenario.widened_button)
          <= maxValue Scenario.widened_button)%Q
  /\ ~ (_value (snd (get_value (H0 := Scenario.consts) Scenario.widened_button))
          <= maxValue Scenario.widened_button)%Q.
Proof.
  split; [reflexivity|]. split; [vm_compute; discriminate|].
  split; [reflexivity|].
  split; intros E; vm_compute in E; apply E; reflexivity.
Qed.

(** On binary64 numbers the rounding of the getter's division and product
    can land above [maxValue] without any outside write: on a slider with
    a track 42 wide (button 20, range 0..100), assigning 100 and reading
    [value] back gives the next number above 100. *)
Lemma value_above_maxValue_binary64 :
  let s := state_of (set_value (H0 := Scenario.consts) 100%float
                       (Scenario.slider 42%float 0%float 100%float)) in
  x (button s) = 22%float
  /\ fst (get_value (H0 := Scenario.consts) s) = 0x1.9000000000001p+6%float
  /\ PrimFloat.ltb (maxValue s) (fst (get_value (H0 := Scenario.consts) s))
     = true.
Proof. vm_compute. repeat split. Qed.

Lemma set_orientation_rejects_other_values_witness :
  JsString "diagonal" <> HORIZONTAL (StConst := Scenario.consts)
  /\ JsString "diagonal" <> VERTICAL (StConst := Scenario.consts)
  /\ set_orientation (H0 := Scenario.consts) (JsString "diagonal")
       (Scenario.slider (A := Q) 392 0 100)
     = Thrown
         (Error "Slider.orientation must be either ST.HORIZONTAL or UI.VERTICAL")
         (Scenario.slider 392 0 100).
Proof.
  split; [discriminate|]. split; [discriminate|].
  apply (set_orientation_rejects_other_values (H := Scenario.consts));
    discriminate.
Defined.

Lemma value_within_range_on_track_witness :
  let s := with_button (with_x 186%Q (button (Scenario.slider 392%Q 0%Q 100%Q)))
             (Scenario.slider 392%Q 0%Q 100%Q) in
  (fst (get_value (H0 := Scenario.consts) s)
   = raw_value (H0 := Scenario.consts) s
   /\ _value (snd (get_value (H0 := Scenario.consts) s))
      = raw_value (H0 := Scenario.consts) s)
  /\ (minValue s <= raw_value (H0 := Scenario.consts) s <= maxValue s)%Q
  /\ (minValue s <= clamp 150%Q s <= maxValue s)%Q.
Proof.
  cbv zeta.
  destruct (value_within_range_on_track (H := Scenario.consts))
    as (Hget & Hraw & _ & Hclamp).
  split; [|split].
  - apply Hget. reflexivity.
  - apply Hraw.
    + vm_compute. discriminate.
    + reflexivity.
    + split; vm_compute; discriminate.
  - apply Hclamp. vm_compute. discriminate.
Defined.

(** On binary64 numbers the round trip fails where the formulas divide by
    zero, and is inexact elsewhere: with [minValue = maxValue = 5] the
    in-range value 5 puts the button at [NaN] and reads back as [NaN];
    with a track as long as the button (20) the value 50 reads back as
    [NaN]; and on the slider of the scenario 37 reads back as the number
    just below it. *)
Lemma value_set_then_get_fails_binary64 :
  let get s := fst (get_value (H0 := Scenario.consts) s) in
  let set v s := state_of (set_value (H0 := Scenario.consts) v s) in
  let flat := Scenario.slider 392%float 5%float 5%float in
  let stuck := Scenario.slider 20%float 0%float 100%float in
  let usual := Scenario.slider 392%float 0%float 100%float in
  PrimFloat.is_nan (x (button (set 5%float flat))) = true
  /\ PrimFloat.is_nan (get (set 5%float flat)) = true
  /\ PrimFloat.is_nan (get (set 50%float stuck)) = true
  /\ get (set 37%float usual) = 0x1.27fffffffffffp+5%float
  /\ PrimFloat.eqb (get (set 37%float usual)) 37%float = false.
Proof. vm_compute. repeat split. Qed.

Lemma value_set_then_get_witness :
  (exists s', set_value (H0 := Scenario.consts) 50%float
                (Scenario.slider 392%float 0%float 100%float) = Returned s'
              /\ x (button s') = 186%float
              /\ fst (get_value (H0 := Scenario.consts) s') = 50%float)
  /\ (exists s', set_value (H0 := Scenario.consts) 37%Q
                   (Scenario.slider 392%Q 0%Q 100%Q) = Returned s'
                 /\ (fst (get_value (H0 := Scenario.consts) s') == 37)%Q).
Proof.
  destruct (value_set_then_get (H := Scenario.consts)) as [Hf Hq]. split.
  - apply Hf; reflexivity.
  - apply Hq.
    + reflexivity.
    + reflexivity.
    + vm_compute. discriminate.
    + split; vm_compute; discriminate.
Defined.

End SliderFacts.

(* ===================================================================== *)
(** * The bypass counter *)
(* ===================================================================== *)

Module BypassFacts.
Import JsNum BaseWidget Slider BaseWidgetFacts SliderFacts.
Local Open Scope nat_scope.




End BypassFacts.

(* ===================================================================== *)
(** * Properties of the slider's listeners *)
(* ===================================================================== *)

Module SliderEventsFacts.
Import JsNum BaseWidget Slider SliderEvents SliderFacts.

Section Exact.
Context `{StConst}.
Implicit Type s : Slider.t Q.
Implicit Type l : SliderEvents.t Q.
Local Open Scope Q_scope.

Lemma Q_lt_true (a b : Q) : Q_lt a b = true <-> a < b.
Proof.
  unfold Q_lt. rewrite negb_true_iff. split.
  - intros E. destruct (Qlt_le_dec a b) as [L|L]; [exact L|].
    apply Qle_bool_iff in L. congruence.
  - intros L. destruct (Qle_bool b a) eqn:E; [|reflexivity].
    apply Qle_bool_iff in E. lra.
Qed.

Lemma Q_lt_false (a b : Q) : Q_lt a b = false <-> b <= a.
Proof.
  unfold Q_lt. rewrite negb_false_iff. apply Qle_bool_iff.
Qed.

(** What moving the button along the slide axis and reading [value] leaves
    behind. *)
Lemma move_button_x_slider (v : Q) l :
  orientation (slider l) = HORIZONTAL ->
  position (slider (move_button_x v l)) = v
  /\ travel (slider (move_button_x v l)) = travel (slider l)
  /\ minValue (slider (move_button_x v l)) = minValue (slider l)
  /\ maxValue (slider (move_button_x v l)) = maxValue (slider l)
  /\ _value (slider (move_button_x v l))
     = (maxValue (slider l) - minValue (slider l)) / travel (slider l) * v
       + minValue (slider l).
Proof.
  intros Ho. unfold move_button_x. cbn [slider with_slider].
  rewrite get_value_eq. cbn [snd].
  unfold raw_value, position, travel, orientation, applyPosition in *.
  destruct (slider l) as [b o mn mx vl ov cb tr bt hw hh em]. cbn in *.
  subst o. destruct (decide (HORIZONTAL = HORIZONTAL)) as [_|N]; [|contradiction].
  unfold set_x, mutated. cbn.
  destruct (bypassDepth bt); cbn; repeat split; reflexivity.
Qed.

Lemma move_button_y_slider (v : Q) l :
  orientation (slider l) <> HORIZONTAL ->
  position (slider (move_button_y v l)) = v
  /\ travel (slider (move_button_y v l)) = travel (slider l)
  /\ minValue (slider (move_button_y v l)) = minValue (slider l)
  /\ maxValue (slider (move_button_y v l)) = maxValue (slider l)
  /\ _value (slider (move_button_y v l))
     = (maxValue (slider l) - minValue (slider l)) / travel (slider l) * v
       + minValue (slider l).
Proof.
  intros Ho. unfold move_button_y. cbn [slider with_slider].
  rewrite get_value_eq. cbn [snd].
  unfold raw_value, position, travel, orientation, applyPosition in *.
  destruct (slider l) as [b o mn mx vl ov cb tr bt hw hh em]. cbn in *.
  destruct (decide (o = HORIZONTAL)) as [E|_]; [contradiction|].
  unfold set_y, mutated. cbn.
  destruct (bypassDepth bt); cbn; repeat split; reflexivity.
Qed.

Lemma move_button_slider (v : Q) l :
  position (slider (move_button v l)) = v
  /\ travel (slider (move_button v l)) = travel (slider l)
  /\ minValue (slider (move_button v l)) = minValue (slider l)
  /\ maxValue (slider (move_button v l)) = maxValue (slider l)
  /\ _value (slider (move_button v l))
     = (maxValue (slider l) - minValue (slider l)) / travel (slider l) * v
       + minValue (slider l).
Proof.
  unfold move_button.
  destruct (decide (orientation (slider l) = HORIZONTAL)) as [E|E].
  - apply move_button_x_slider. exact E.
  - apply move_button_y_slider. exact E.
Qed.

(** The listener on [pointermove], along the slide axis. *)
Lemma pointermove_eq (pos : Point.t Q) l :
  pointermove pos l =
    if _dragging l then
      let l0 := with_button_bypassInvalidation true l in
      let a := along pos (slider l) in
      let h := btnHalf (slider l) in
      let u := trackLength (slider l) - h in
      end_pointermove
        (if Q_lt h a && Q_lt a u then move_button (a - h) l0
         else if Q_lt u a then move_button (u - h) l0
         else if Q_lt a h then move_button 0 l0
         else l0)
    else l.
Proof.
  unfold pointermove, end_pointermove, move_button, along, btnHalf,
    trackLength, gt.
  destruct (_dragging l); [|reflexivity].
  cbn [slider with_button_bypassInvalidation].
  destruct (decide (orientation (slider l) = HORIZONTAL)); reflexivity.
Qed.

Lemma pointertap_eq (pos : Point.t Q) l :
  pointertap pos l =
    let l0 := with_button_bypassInvalidation true l in
    let a := along pos (slider l) in
    end_pointertap
      (move_button
         (if Q_lt (trackLength (slider l) - buttonLength (slider l)) a
          then a - buttonLength (slider l) else a) l0).
Proof.
  unfold pointertap, end_pointertap, move_button, along, buttonLength,
    trackLength, gt.
  cbn [slider with_button_bypassInvalidation].
  destruct (decide (orientation (slider l) = HORIZONTAL)); reflexivity.
Qed.

Lemma travel_eq s : travel s = trackLength s - buttonLength s.
Proof.
  unfold travel, trackLength, buttonLength.
  destruct (decide (orientation s = HORIZONTAL)); reflexivity.
Qed.

Lemma emit_fields name s :
  position (emit name s) = position s
  /\ travel (emit name s) = travel s
  /\ minValue (emit name s) = minValue s
  /\ maxValue (emit name s) = maxValue s
  /\ _value (emit name s) = _value s.
Proof. repeat split. Qed.

(** After a button move to a coordinate on the track, the button is on the
    track and the stored value is in the range. *)
Lemma move_button_invariant (v : Q) l :
  minValue (slider l) <= maxValue (slider l) ->
  0 < travel (slider l) ->
  0 <= v <= travel (slider l) ->
  on_track (slider (move_button v l)) /\ in_range (slider (move_button v l)).
Proof.
  intros Hr Ht [Hv0 Hv1].
  destruct (move_button_slider v l) as (Ep & Et & Emn & Emx & Ev).
  unfold on_track, in_range. rewrite Ep, Et, Emn, Emx, Ev.
  split; [split; assumption|]. apply Q_linear_range; assumption.
Qed.

Lemma slider_end_pointermove l :
  slider (end_pointermove l) = emit "changed" (slider l).
Proof. reflexivity. Qed.

Lemma slider_end_pointertap l :
  slider (end_pointertap l) = emit "changed" (slider l).
Proof. reflexivity. Qed.

(** X1.  In exact arithmetic, on a slider with a range that is not
    inverted, a track longer than the button and cached halves that are
    half the button, the listener on [pointermove] keeps the button on the
    track and the stored value in the range, wherever the pointer is and
    whether or not a drag is on. *)
Theorem pointermove_keeps_button_on_track (pos : Point.t Q) l :
  minValue (slider l) <= maxValue (slider l) ->
  0 < travel (slider l) ->
  2 * btnHalf (slider l) == buttonLength (slider l) ->
  on_track (slider l) -> in_range (slider l) ->
  on_track (slider (pointermove pos l))
  /\ in_range (slider (pointermove pos l)).
Proof.
  intros Hr Ht Hh Hon Hin. rewrite pointermove_eq.
  destruct (_dragging l); [|split; assumption].
  cbv zeta. rewrite slider_end_pointermove.
  set (l0 := with_button_bypassInvalidation true l).
  set (a := along pos (slider l)). set (h := btnHalf (slider l)) in *.
  assert (Htr : travel (slider l) = trackLength (slider l) - buttonLength (slider l))
    by apply travel_eq.
  assert (G : forall v, 0 <= v <= travel (slider l) ->
            on_track (emit "changed" (slider (move_button v l0)))
            /\ in_range (emit "changed" (slider (move_button v l0)))).
  { intros v Hv. apply (move_button_invariant v l0); assumption. }
  destruct (Q_lt h a && Q_lt a (trackLength (slider l) - h)) eqn:B1.
  - apply andb_true_iff in B1 as [B1 B2].
    apply Q_lt_true in B1, B2. apply G. rewrite Htr. split; lra.
  - destruct (Q_lt (trackLength (slider l) - h) a) eqn:B2.
    + apply G. rewrite Htr. rewrite Htr in Ht. split; lra.
    + destruct (Q_lt a h) eqn:B3.
      * apply G. split; lra.
      * split; assumption.
Qed.

(** X2.  The three tests of the listener on [pointermove] are strict.
    While a drag is on, on a track at least two cached button halves
    long, a pointer exactly at the cached half of the button, or exactly
    that far before the end of the track, moves nothing: the button and
    the stored value stay as they were, yet the button is painted down and
    [changed] is emitted. *)
Theorem pointermove_dead_spots (pos : Point.t Q) l :
  _dragging l = true ->
  btnHalf (slider l) <= trackLength (slider l) - btnHalf (slider l) ->
  (along pos (slider l) == btnHalf (slider l)
   \/ along pos (slider l) == trackLength (slider l) - btnHalf (slider l)) ->
  slider (pointermove pos l) = emit "changed" (slider l)
  /\ button_texture (pointermove pos l) = button_click
  /\ _dragging (pointermove pos l) = true.
Proof.
  intros Hd Hh Hpos. rewrite pointermove_eq, Hd. cbv zeta.
  set (a := along pos (slider l)) in *. set (h := btnHalf (slider l)) in *.
  set (u := trackLength (slider l) - h) in *.
  assert (B1 : Q_lt h a && Q_lt a u = false).
  { apply andb_false_iff. destruct Hpos as [E|E].
    - left. apply Q_lt_false. lra.
    - right. apply Q_lt_false. lra. }
  assert (B2 : Q_lt u a = false) by (apply Q_lt_false; destruct Hpos; lra).
  assert (B3 : Q_lt a h = false) by (apply Q_lt_false; destruct Hpos; lra).
  rewrite B1, B2, B3. repeat split. exact Hd.
Qed.

(** X3.  In exact arithmetic, a tap that lands on the track of a slider
    whose track is at least two buttons long leaves the button on the
    track and the stored value in the range, whatever they were. *)
Theorem pointertap_puts_button_on_track (pos : Point.t Q) l :
  minValue (slider l) <= maxValue (slider l) ->
  0 < travel (slider l) ->
  buttonLength (slider l) <= travel (slider l) ->
  0 <= along pos (slider l) <= trackLength (slider l) ->
  on_track (slider (pointertap pos l))
  /\ in_range (slider (pointertap pos l)).
Proof.
  intros Hr Ht Hb [Ha0 Ha1]. rewrite pointertap_eq. cbv zeta.
  rewrite slider_end_pointertap.
  set (l0 := with_button_bypassInvalidation true l).
  assert (Htr : travel (slider l) = trackLength (slider l) - buttonLength (slider l))
    by apply travel_eq.
  rewrite <- Htr.
  apply (move_button_invariant _ l0); [assumption|assumption|].
  change (travel (slider l0)) with (travel (slider l)).
  destruct (Q_lt (travel (slider l)) (along pos (slider l))) eqn:B.
  - apply Q_lt_true in B. rewrite Htr in *. split; lra.
  - apply Q_lt_false in B. split; assumption.
Qed.

(** X4.  The listener on [pointertap] subtracts the button's length from
    a tap in the last button-length of the track and from no other: of two
    taps less than a button apart, one before that stretch and one in it,
    the farther one leaves the button at the smaller coordinate, and, when
    [minValue < maxValue] and the track is longer than the button, the
    smaller value. *)
Theorem pointertap_jumps_back (p1 p2 : Point.t Q) l :
  along p1 (slider l) <= travel (slider l) ->
  travel (slider l) < along p2 (slider l) ->
  along p2 (slider l) < along p1 (slider l) + buttonLength (slider l) ->
  position (slider (pointertap p2 l)) < position (slider (pointertap p1 l))
  /\ (minValue (slider l) < maxValue (slider l) ->
      0 < travel (slider l) ->
      _value (slider (pointertap p2 l)) < _value (slider (pointertap p1 l))).
Proof.
  intros H1 H2 H3. rewrite !pointertap_eq. cbv zeta.
  rewrite !slider_end_pointertap.
  set (l0 := with_button_bypassInvalidation true l).
  rewrite <- travel_eq.
  assert (B1 : Q_lt (travel (slider l)) (along p1 (slider l)) = false)
    by (apply Q_lt_false; assumption).
  assert (B2 : Q_lt (travel (slider l)) (along p2 (slider l)) = true)
    by (apply Q_lt_true; assumption).
  rewrite B1, B2.
  destruct (move_button_slider (along p1 (slider l)) l0)
    as (Ep1 & _ & _ & _ & Ev1).
  destruct (move_button_slider
              (along p2 (slider l) - buttonLength (slider l)) l0)
    as (Ep2 & _ & _ & _ & Ev2).
  change (position (emit "changed" ?s)) with (position s).
  change (_value (emit "changed" ?s)) with (_value s).
  rewrite Ep1, Ep2, Ev1, Ev2.
  change (slider l0) with (slider l).
  split; [lra|]. intros Hr Ht.
  assert (K : 0 < (maxValue (slider l) - minValue (slider l))
                  / travel (slider l)).
  { apply Qlt_shift_div_l; lra. }
  set (k := (maxValue (slider l) - minValue (slider l)) / travel (slider l)) in *.
  nra.
Qed.

Lemma fields_after_set (val : Q) s s' :
  set_value val s = Returned s' ->
  position s'
  = (clamp val s - minValue s) / (maxValue s - minValue s) * travel s
  /\ travel s' = travel s
  /\ minValue s' = minValue s /\ maxValue s' = maxValue s
  /\ _value s' = clamp val s
  /\ valueCB s' = valueCB s.
Proof.
  rewrite set_value_eq. intros [= <-].
  unfold position, travel, orientation. cbn.
  destruct (decide (_orientation s = HORIZONTAL)); repeat split.
Qed.

(** X5.  In exact arithmetic, on a slider with a proper range and a track
    no shorter than the button, assigning any number to [value] leaves
    the button on the track and the stored value in the range. *)
Theorem set_value_puts_button_on_track (val : Q) s :
  minValue s < maxValue s ->
  0 <= travel s ->
  exists s', set_value val s = Returned s' /\ on_track s' /\ in_range s'.
Proof.
  intros Hr Ht.
  destruct (set_value val s) as [s'|e s'] eqn:E;
    [|rewrite set_value_eq in E; discriminate].
  exists s'. split; [reflexivity|].
  destruct (fields_after_set val s s' E) as (Ep & Et & Emn & Emx & Ev & _).
  unfold on_track, in_range. rewrite Ep, Et, Emn, Emx, Ev.
  assert (C : minValue s <= clamp val s /\ clamp val s <= maxValue s)
    by (apply Q_clamp_range; lra).
  destruct C as [C0 C1].
  set (c := clamp val s) in *.
  assert (F0 : 0 <= (c - minValue s) / (maxValue s - minValue s))
    by (apply Qle_shift_div_l; lra).
  assert (F1 : (c - minValue s) / (maxValue s - minValue s) <= 1)
    by (apply Qle_shift_div_r; lra).
  split; [|split; assumption].
  set (f := (c - minValue s) / (maxValue s - minValue s)) in *.
  split; nra.
Qed.

Lemma Q_clamp_above (v mn mx : Q) :
  mn <= mx -> mx <= v -> Q_min (Q_max v mn) mx == mx.
Proof.
  intros Hm Hv. unfold Q_min, Q_max.
  destruct (Qle_bool v mn) eqn:E1.
  - apply Qle_bool_iff in E1. destruct (Qle_bool mn mx); lra.
  - destruct (Qle_bool v mx) eqn:E2; [|reflexivity].
    apply Qle_bool_iff in E2. lra.
Qed.

Lemma Q_clamp_below (v mn mx : Q) :
  mn <= mx -> v <= mn -> Q_min (Q_max v mn) mx == mn.
Proof.
  intros Hm Hv. unfold Q_min, Q_max.
  destruct (Qle_bool v mn) eqn:E1.
  - destruct (Qle_bool mn mx) eqn:E2; [reflexivity|].
    assert (~ mn <= mx) by (rewrite <- Qle_bool_iff; congruence). lra.
  - assert (~ v <= mn) by (rewrite <- Qle_bool_iff; congruence). lra.
Qed.

(** What is read back after an assignment, [c] being the clamped value up
    to equality of rationals. *)
Lemma read_after_set (val c : Q) s s' :
  valueCB s = None ->
  ~ maxValue s - minValue s == 0 -> ~ travel s == 0 ->
  clamp val s == c ->
  set_value val s = Returned s' ->
  fst (get_value s') == c
  /\ position s' == (c - minValue s) / (maxValue s - minValue s) * travel s.
Proof.
  intros Hcb Hr Ht Hc E.
  destruct (fields_after_set val s s' E) as (Ep & _ & _ & _ & _ & Ecb).
  rewrite get_value_eq, Ecb, Hcb. cbn [fst].
  rewrite (raw_value_after_set _ _ _ E), Ep. split.
  - apply Q_round_trip; assumption.
  - rewrite Hc. reflexivity.
Qed.

(** X6.  In exact arithmetic, on a slider with a proper range and a track
    longer or shorter than the button, an assignment above [maxValue]
    parks the button at the end of its travel and reads back as
    [maxValue]; one below [minValue] parks it at the start and reads back
    as [minValue]. *)
Theorem set_value_saturates (val : Q) s :
  valueCB s = None ->
  minValue s < maxValue s ->
  ~ travel s == 0 ->
  exists s', set_value val s = Returned s'
    /\ (maxValue s <= val ->
          fst (get_value s') == maxValue s /\ position s' == travel s)
    /\ (val <= minValue s ->
          fst (get_value s') == minValue s /\ position s' == 0).
Proof.
  intros Hcb Hr Ht.
  destruct (set_value val s) as [s'|e s'] eqn:E;
    [|rewrite set_value_eq in E; discriminate].
  exists s'. split; [reflexivity|]. split; intros Hv.
  - destruct (read_after_set val (maxValue s) s s' Hcb) as [R P];
      [lra|assumption| |exact E|].
    + unfold clamp. cbn. apply Q_clamp_above; lra.
    + split; [exact R|]. rewrite P. field. lra.
  - destruct (read_after_set val (minValue s) s s' Hcb) as [R P];
      [lra|assumption| |exact E|].
    + unfold clamp. cbn. apply Q_clamp_below; lra.
    + split; [exact R|]. rewrite P. field. lra.
Qed.

(** X7.  "Make sure value doesn't change when widget resizes" (l.275): in
    exact arithmetic, once the track has its new size, the listener on the
    track's [sizeChanged] moves the button to the same fraction of the new
    travel, and the value read afterwards is the stored one, provided the
    stored value was in the range. *)
Theorem track_sizeChanged_keeps_value (tr' : Props Q) s :
  valueCB s = None ->
  minValue s < maxValue s ->
  in_range s ->
  ~ travel (with_track tr' s) == 0 ->
  exists s', track_sizeChanged (with_track tr' s) = Returned s'
    /\ fst (get_value s') == _value s
    /\ position s'
       == (_value s - minValue s) / (maxValue s - minValue s)
          * travel (with_track tr' s).
Proof.
  intros Hcb Hr [Hv0 Hv1] Ht. unfold track_sizeChanged.
  set (s1 := with_track tr' s) in *.
  destruct (set_value (_value s1) s1) as [s'|e s'] eqn:E;
    [|rewrite set_value_eq in E; discriminate].
  exists s'. split; [reflexivity|].
  apply (read_after_set (_value s1) (_value s) s1 s');
    [exact Hcb|cbn; lra|exact Ht| |exact E].
  unfold clamp. cbn. apply Q_clamp_id; assumption.
Qed.

(** X9.  With a padding that is not negative, the hit rectangle that
    [updateTrackHitRect()] computes covers the track, [(0, 0)] to the
    track's size, is exactly as long as the track along the slide axis,
    and reaches one padding beyond it on both sides across; any
    orientation other than [HORIZONTAL] counts as vertical. *)
Theorem updateTrackHitRect_covers_track l :
  0 <= trackHitPadding l ->
  let r := trackHitRect (updateTrackHitRect l) in
  let tw := width (track (slider l)) in
  let th := height (track (slider l)) in
  (Rectangle.x r <= 0 /\ Rectangle.y r <= 0
   /\ tw <= Rectangle.x r + Rectangle.width r
   /\ th <= Rectangle.y r + Rectangle.height r)
  /\ (orientation (slider l) = HORIZONTAL ->
        Rectangle.x r == 0 /\ Rectangle.width r = tw
        /\ Rectangle.y r == - trackHitPadding l
        /\ Rectangle.y r + Rectangle.height r == th + trackHitPadding l)
  /\ (orientation (slider l) <> HORIZONTAL ->
        Rectangle.y r == 0 /\ Rectangle.height r = th
        /\ Rectangle.x r == - trackHitPadding l
        /\ Rectangle.x r + Rectangle.width r == tw + trackHitPadding l).
Proof.
  intros Hp. cbv zeta. unfold updateTrackHitRect.
  destruct (decide (orientation (slider l) = HORIZONTAL)) as [E|E]; cbn;
    change (inject_Z 0) with 0; change (inject_Z 2) with 2.
  - split; [repeat split; lra|]. split; [|contradiction].
    intros _. repeat split; try reflexivity; ring.
  - split; [repeat split; lra|]. split; [contradiction|].
    intros _. repeat split; try reflexivity; ring.
Qed.

End Exact.

Section Generic.
Context {A : Type} `{Ops A} `{StConst}.

(** X8.  The orientation setter returns exactly for [HORIZONTAL] and
    [VERTICAL]; when it returns, the getter gives the assigned value back,
    the track expands along the slide axis and is fixed across it, and the
    slider's minimum and maximum size coincide across the slide axis. *)
Theorem set_orientation_round_trip (val : JsValue) (s : Slider.t A) :
  ((exists s', set_orientation val s = Returned s')
   <-> (val = HORIZONTAL \/ val = VERTICAL))
  /\ (forall s', set_orientation val s = Returned s' ->
        orientation s' = val
        /\ (if decide (val = HORIZONTAL)
            then hPolicy (track s') = ExpandingPolicy
                 /\ vPolicy (track s') = FixedPolicy
                 /\ Size.height (max (base s')) = Size.height (min (base s'))
                 /\ Size.height (min (base s')) = height (button s)
            else vPolicy (track s') = ExpandingPolicy
                 /\ hPolicy (track s') = FixedPolicy
                 /\ Size.width (max (base s')) = Size.width (min (base s'))
                 /\ Size.width (min (base s')) = width (button s))).
Proof.
  unfold set_orientation.
  destruct (decide (val = HORIZONTAL)) as [Eh|Eh].
  - split.
    + split; [intros _; left; exact Eh|intros _; eexists; reflexivity].
    + intros s' [= <-]. unfold orientation. cbn.
      unfold set_height, set_width, mutated. cbn.
      destruct (bypassDepth (track s)); cbn; repeat split.
  - destruct (decide (val = VERTICAL)) as [Ev|Ev].
    + split.
      * split; [intros _; right; exact Ev|intros _; eexists; reflexivity].
      * intros s' [= <-]. unfold orientation. cbn.
        unfold set_height, set_width, mutated. cbn.
        destruct (bypassDepth (track s)); cbn; repeat split.
    + split.
      * split; [intros [s' E]; discriminate|intros [E|E]; contradiction].
      * intros s' E. discriminate.
Qed.

End Generic.
Section Flags.
Context {A : Type} `{Ops A} `{StConst}.
Implicit Type l : SliderEvents.t A.

Lemma move_button_x_flags (v : A) l :
  _dragging (move_button_x v l) = _dragging l
  /\ button_bypassInvalidation (move_button_x v l)
     = button_bypassInvalidation l.
Proof. split; reflexivity. Qed.

Lemma move_button_y_flags (v : A) l :
  _dragging (move_button_y v l) = _dragging l
  /\ button_bypassInvalidation (move_button_y v l)
     = button_bypassInvalidation l.
Proof. split; reflexivity. Qed.

(** X10.  Neither pointer listener leaves the flag it raises on the button
    raised, and neither starts or ends a drag: [pointertap] always returns
    with [button.bypassInvalidation] false, [pointermove] does so when a
    drag is on and touches nothing otherwise. *)
Theorem pointer_listeners_lower_flag (pos : Point.t A) l :
  button_bypassInvalidation (pointertap pos l) = false
  /\ button_bypassInvalidation (pointermove pos l)
     = (if _dragging l then false else button_bypassInvalidation l)
  /\ _dragging (pointertap pos l) = _dragging l
  /\ _dragging (pointermove pos l) = _dragging l
  /\ (if _dragging l then True else pointermove pos l = l).
Proof.
  unfold pointertap, pointermove.
  destruct (_dragging l) eqn:D; cbn [slider with_button_bypassInvalidation];
    destruct (decide (orientation (slider l) = HORIZONTAL));
    repeat match goal with
           | |- context [if ?b then _ else _] => destruct b
           end;
    cbn; repeat split; try reflexivity; exact D.
Qed.

(** X11.  Reading [value] twice in a row is the same as reading it once:
    the first read already left [_value] at the number the second one
    computes, and both return the same result. *)
Theorem value_read_is_idempotent (s : Slider.t A) :
  get_value (snd (get_value s)) = get_value s.
Proof.
  rewrite (get_value_eq s). cbn [snd]. rewrite get_value_eq.
  assert (E : raw_value (with__value (raw_value s) s) = raw_value s).
  { unfold raw_value, travel, position, orientation. cbn.
    destruct (decide (_orientation s = HORIZONTAL)); reflexivity. }
  rewrite E. reflexivity.
Qed.

End Flags.

Section Instances.
Local Open Scope Q_scope.

Lemma pointermove_keeps_button_on_track_witness :
  let l := with__dragging true
             (Scenario.live (Scenario.slider 392 0 100)) in
  let pos := Point.mk 100 0 in
  on_track (H := Scenario.consts) (slider l)
  /\ on_track (H := Scenario.consts)
       (slider (pointermove (H0 := Scenario.consts) pos l))
  /\ in_range (slider (pointermove (H0 := Scenario.consts) pos l)).
Proof.
  cbv zeta.
  assert (Hon : on_track (H := Scenario.consts)
                  (Scenario.slider 392 0 100))
    by (split; vm_compute; discriminate).
  split; [exact Hon|].
  apply (pointermove_keeps_button_on_track (H := Scenario.consts)).
  - vm_compute. discriminate.
  - reflexivity.
  - reflexivity.
  - exact Hon.
  - split; vm_compute; discriminate.
Defined.

Lemma pointermove_dead_spots_witness :
  let l := with__dragging true
             (Scenario.live (Scenario.slider 392 0 100)) in
  let pos := Point.mk 10 0 in
  along (H0 := Scenario.consts) pos (slider l)
  == btnHalf (H0 := Scenario.consts) (slider l)
  /\ (slider (pointermove (H0 := Scenario.consts) pos l)
      = emit "changed" (slider l)
      /\ button_texture (pointermove (H0 := Scenario.consts) pos l)
         = button_click
      /\ _dragging (pointermove (H0 := Scenario.consts) pos l) = true).
Proof.
  cbv zeta. split; [reflexivity|].
  apply (pointermove_dead_spots (H := Scenario.consts)).
  - reflexivity.
  - vm_compute. discriminate.
  - left. reflexivity.
Defined.

Lemma pointertap_puts_button_on_track_witness :
  let l := Scenario.live (Scenario.slider 392 0 100) in
  let pos := Point.mk 380 0 in
  (0 <= along (H0 := Scenario.consts) pos (slider l)
   <= trackLength (H0 := Scenario.consts) (slider l))
  /\ on_track (H := Scenario.consts)
       (slider (pointertap (H0 := Scenario.consts) pos l))
  /\ in_range (slider (pointertap (H0 := Scenario.consts) pos l)).
Proof.
  cbv zeta.
  assert (Ha : 0 <= 380 <= 392) by (split; vm_compute; discriminate).
  split; [exact Ha|].
  apply (pointertap_puts_button_on_track (H := Scenario.consts)).
  - vm_compute. discriminate.
  - reflexivity.
  - vm_compute. discriminate.
  - exact Ha.
Defined.

Lemma pointertap_jumps_back_witness :
  let l := Scenario.live (Scenario.slider 392 0 100) in
  position (H0 := Scenario.consts)
    (slider (pointertap (H0 := Scenario.consts) (Point.mk 373 0) l))
  < position (H0 := Scenario.consts)
      (slider (pointertap (H0 := Scenario.consts) (Point.mk 372 0) l))
  /\ _value (slider (pointertap (H0 := Scenario.consts) (Point.mk 373 0) l))
     < _value (slider (pointertap (H0 := Scenario.consts) (Point.mk 372 0) l)).
Proof.
  cbv zeta.
  destruct (pointertap_jumps_back (H := Scenario.consts)
              (Point.mk 372 0) (Point.mk 373 0)
              (Scenario.live (Scenario.slider 392 0 100)))
    as [Hp Hv].
  - vm_compute. discriminate.
  - reflexivity.
  - reflexivity.
  - split; [exact Hp|]. apply Hv; reflexivity.
Defined.

Lemma set_value_puts_button_on_track_witness :
  exists s', set_value (H0 := Scenario.consts) 150
               (Scenario.slider 392 0 100) = Returned s'
             /\ on_track (H := Scenario.consts) s' /\ in_range s'.
Proof.
  apply (set_value_puts_button_on_track (H := Scenario.consts)).
  - reflexivity.
  - vm_compute. discriminate.
Defined.

Lemma set_value_saturates_witness :
  exists s', set_value (H0 := Scenario.consts) 150
               (Scenario.slider 392 0 100) = Returned s'
    /\ (100 <= 150 ->
          fst (get_value (H0 := Scenario.consts) s') == 100
          /\ position (H0 := Scenario.consts) s'
             == travel (H0 := Scenario.consts) (Scenario.slider 392 0 100))
    /\ (150 <= 0 ->
          fst (get_value (H0 := Scenario.consts) s') == 0
          /\ position (H0 := Scenario.consts) s' == 0).
Proof.
  apply (set_value_saturates (H := Scenario.consts)).
  - reflexivity.
  - reflexivity.
  - vm_compute. discriminate.
Defined.

Lemma track_sizeChanged_keeps_value_witness :
  let s := state_of (set_value (H0 := Scenario.consts) 50
                       (Scenario.slider 392 0 100)) in
  let tr' := with_width 200 (track s) in
  in_range s
  /\ exists s', track_sizeChanged (H0 := Scenario.consts) (with_track tr' s)
                = Returned s'
       /\ fst (get_value (H0 := Scenario.consts) s') == _value s
       /\ position (H0 := Scenario.consts) s'
          == (_value s - minValue s) / (maxValue s - minValue s)
             * travel (H0 := Scenario.consts) (with_track tr' s).
Proof.
  cbv zeta.
  assert (Hin : in_range (state_of (set_value (H0 := Scenario.consts) 50
                                      (Scenario.slider 392 0 100))))
    by (split; vm_compute; discriminate).
  split; [exact Hin|].
  apply (track_sizeChanged_keeps_value (H := Scenario.consts)).
  - reflexivity.
  - reflexivity.
  - exact Hin.
  - vm_compute. discriminate.
Defined.

Lemma updateTrackHitRect_covers_track_witness :
  let l := Scenario.live (Scenario.slider 392 0 100) in
  let r := trackHitRect (updateTrackHitRect (H0 := Scenario.consts) l) in
  0 <= trackHitPadding l
  /\ (Rectangle.x r <= 0 /\ Rectangle.y r <= 0
      /\ 392 <= Rectangle.x r + Rectangle.width r
      /\ 5 <= Rectangle.y r + Rectangle.height r).
Proof.
  cbv zeta.
  assert (Hp : 0 <= trackHitPadding
                      (Scenario.live (Scenario.slider 392 0 100)))
    by (vm_compute; discriminate).
  split; [exact Hp|].
  apply (updateTrackHitRect_covers_track (H := Scenario.consts)
           (Scenario.live (Scenario.slider 392 0 100)) Hp).
Defined.

End Instances.
End SliderEventsFacts.
